(** * chrom-tuner: the pitch-detection core of [assets/js/script.js]

    A shallow embedding of the tuner's numeric pipeline: [autoCorrelate],
    [correlationShift], the pitch mapper ([noteFromPitch],
    [frequencyFromNoteNumber], [centsOffFromPitch]), [findMostFrequent],
    [setNeedle], [updateFlatSharpIndicator] and the per-frame state update of
    [updatePitch].

    JavaScript numbers are IEEE 754 binary64 values, so they are modelled by
    Rocq's primitive floats, whose [+], [-], [*], [/], [sqrt], [abs] and
    comparisons are the binary64 operations.  Loop counters and array
    lengths, which the script only ever uses as small exact integers, are
    kept as [nat]/[Z] and converted with [num] where they enter float
    arithmetic.

    Two contracts of the specification are written out next to the code
    they describe, to be compared with it: the sub-lag refinement of
    section 4.1.1 ([RefineReference]) and the pitch mapper of section 4.2
    over the real numbers ([PitchReference]). *)

From Stdlib Require Import String ZArith List Bool Lia Floats Uint63.
From Stdlib Require Import Permutation Sorted.
From Stdlib Require Reals Lra.
Import ListNotations.

Set Warnings "-inexact-float".

Open Scope Z_scope.

(** ** JavaScript numbers *)

Module Num.

(** An integer as a JavaScript number (exact below [2^53]). *)
Definition num (z : Z) : float :=
  match z with
  | Z0 => 0%float
  | Zpos _ => PrimFloat.of_uint63 (Uint63.of_Z z)
  | Zneg p => (- PrimFloat.of_uint63 (Uint63.of_Z (Zpos p)))%float
  end.

(** [a > b] and [a < b] of the script, on numbers. *)
Definition gt (a b : float) : bool := PrimFloat.ltb b a.
Definition lt (a b : float) : bool := PrimFloat.ltb a b.

(** [isFinite]. *)
Definition isFinite (x : float) : bool :=
  negb (PrimFloat.is_nan x) && negb (PrimFloat.is_infinity x).

(** [ToNumber] of the result of an indexed read: [undefined] is [NaN]. *)
Definition ofRead (v : option float) : float :=
  match v with
  | Some x => x
  | None => PrimFloat.nan
  end.

(** The exact value [M * 2^e] of a finite number, as the pair [(M, e)]. *)
Definition exactValue (x : float) : option (Z * Z) :=
  match Prim2SF x with
  | S754_zero _ => Some (0, 0)
  | S754_finite s m e => Some (if s then Zneg m else Zpos m, e)
  | _ => None
  end.

(** [Math.floor]: the largest integer not above [x]; [NaN], the infinities,
    the zeros and the integers are returned as they are. *)
Definition Math_floor (x : float) : float :=
  match exactValue x with
  | Some (M, e) => if e <? 0 then num (Z.shiftl M e) else x
  | None => x
  end.

(** [Math.round]: the integer nearest to [x], the one towards [+Infinity] on
    a tie, that is [floor (x + 1/2)] computed exactly ([-0] for a result of
    zero from a negative [x]). *)
Definition Math_round (x : float) : float :=
  match exactValue x with
  | Some (M, e) =>
      if e <? 0 then
        let z := (2 * M + 2 ^ (- e)) / (2 * 2 ^ (- e)) in
        if (z =? 0) && (M <? 0) then PrimFloat.neg_zero else num z
      else x
  | None => x
  end.

(** [Math.min] and [Math.max] of two numbers. *)
Definition Math_min (a b : float) : float :=
  if PrimFloat.is_nan a || PrimFloat.is_nan b then PrimFloat.nan
  else if lt a b then a else if lt b a then b
  else if PrimFloat.get_sign a then a else b.

Definition Math_max (a b : float) : float :=
  if PrimFloat.is_nan a || PrimFloat.is_nan b then PrimFloat.nan
  else if gt a b then a else if gt b a then b
  else if PrimFloat.get_sign a then b else a.

(** The integer a number is, when it is one (the index of a property read
    such as [noteStrings[x]]). *)
Definition toInteger (x : float) : option Z :=
  match exactValue x with
  | Some (M, e) =>
      if 0 <=? e then Some (M * 2 ^ e)
      else if M mod 2 ^ (- e) =? 0 then Some (M / 2 ^ (- e)) else None
  | None => None
  end.

End Num.
Import Num.

(** The functions of the host's [Math] object that ECMAScript leaves
    implementation-approximated; the script uses [Math.log] and [Math.pow]. *)
Class MathObject := {
  Math_log : float -> float;
  Math_pow : float -> float -> float
}.

(** ** Float32Array reads

    [buffer[i]] is the element at [i] when [0 <= i < buffer.length] and
    [undefined] otherwise. *)
Definition read (buffer : list float) (i : Z) : option float :=
  if i <? 0 then None else nth_error buffer (Z.to_nat i).

Definition inBounds (buffer : list float) (i : Z) : bool :=
  (0 <=? i) && (i <? Z.of_nat (length buffer)).

(** ** Autocorrelator *)

Module Autocorrelator.

(** The inner accumulation shared by both functions,
    [for (k = 0; k < n; k++) acc += Math.abs(buffer[k] - buffer[k + lag])],
    started from [0]. *)
Definition absDiffSum (buffer : list float) (n : nat) (lag : Z) : float :=
  fold_left
    (fun acc k =>
       (acc + PrimFloat.abs (ofRead (read buffer (Z.of_nat k))
                             - ofRead (read buffer (Z.of_nat k + lag))))%float)
    (seq 0 n) 0%float.

(** *** correlationShift *)

Record shift_state := mkShift {
  best_offset : Z;
  best_correlation : float
}.

(** [cc] and [cc_prev] of step [i]. *)
Definition cc (buffer : list float) (maxSamples : nat) (offset : Z) (i : nat) : float :=
  absDiffSum buffer maxSamples (offset + Z.of_nat i).

Definition cc_prev (buffer : list float) (maxSamples : nat) (offset : Z) (i : nat) : float :=
  absDiffSum buffer maxSamples (offset + Z.of_nat i - 1).

(** One pass of the body of the loop over [i]: the updated state and
    whether the loop [break]s after it. *)
Definition shift_step (buffer : list float) (maxSamples : nat) (offset : Z)
           (i : nat) (st : shift_state) : shift_state * bool :=
  let st' :=
    if Nat.eqb i 0 || lt (cc buffer maxSamples offset i) (best_correlation st)
    then mkShift (Z.of_nat i) (cc buffer maxSamples offset i) else st in
  (st', gt (cc buffer maxSamples offset i) (cc_prev buffer maxSamples offset i)).

(** The loop over the remaining values of [i]; the result carries the
    values of [i] whose body ran, in order. *)
Fixpoint shift_loop (buffer : list float) (maxSamples : nat) (offset : Z)
         (steps : list nat) (st : shift_state) : shift_state * list nat :=
  match steps with
  | [] => (st, [])
  | i :: rest =>
      let '(st', stop) := shift_step buffer maxSamples offset i st in
      if stop then (st', [i])
      else let '(st'', ran) := shift_loop buffer maxSamples offset rest st' in
           (st'', i :: ran)
  end.

Definition shift_init : shift_state := mkShift (-1) 0%float.

Definition correlationShift (buffer : list float) (maxSamples : nat)
           (offset : Z) : Z :=
  best_offset (fst (shift_loop buffer maxSamples offset (seq 0 16) shift_init)).

(** The values of [i] whose body ran. *)
Definition shiftSteps (buffer : list float) (maxSamples : nat)
           (offset : Z) : list nat :=
  snd (shift_loop buffer maxSamples offset (seq 0 16) shift_init).

(** The indices [correlationShift] reads: for each [i] that ran and each
    [j < maxSamples], [j], [j + offset + i] and [j + offset + i - 1]. *)
Definition shiftReads (buffer : list float) (maxSamples : nat)
           (offset : Z) : list Z :=
  flat_map
    (fun i =>
       flat_map
         (fun j => [Z.of_nat j; Z.of_nat j + offset + Z.of_nat i;
                    Z.of_nat j + offset + Z.of_nat i - 1])
         (seq 0 maxSamples))
    (shiftSteps buffer maxSamples offset).

(** *** autoCorrelate *)

Definition SIZE (buffer : list float) : nat := length buffer.
Definition MAX_SAMPLES (buffer : list float) : nat := (SIZE buffer / 2)%nat.

(** [rms], before and after [rms = Math.sqrt(rms / SIZE)]. *)
Definition sumSquares (buffer : list float) : float :=
  fold_left
    (fun acc i =>
       let val := ofRead (read buffer (Z.of_nat i)) in (acc + val * val)%float)
    (seq 0 (SIZE buffer)) 0%float.

Definition rms (buffer : list float) : float :=
  PrimFloat.sqrt (sumSquares buffer / num (Z.of_nat (SIZE buffer))).

(** [correlation] at a lag, after [correlation = 1 - correlation / MAX_SAMPLES]. *)
Definition correlationAt (buffer : list float) (offset : nat) : float :=
  (1 - absDiffSum buffer (MAX_SAMPLES buffer) (Z.of_nat offset)
       / num (Z.of_nat (MAX_SAMPLES buffer)))%float.

Record scan_state := mkScan {
  bestOffset : Z;
  bestCorrelation : float;
  lastCorrelation : float;
  foundGoodCorrelation : bool
}.

Definition scan_init : scan_state := mkScan (-1) 0%float 1%float false.

(** How the loop over [offset] ends: at the [else if] branch, at some
    offset, or by running out of offsets. *)
Inductive scan_end :=
| Refine (offset : nat) (st : scan_state)
| Exhausted (st : scan_state).

Fixpoint scan (buffer : list float) (offsets : list nat) (st : scan_state)
  : scan_end :=
  match offsets with
  | [] => Exhausted st
  | offset :: rest =>
      let correlation := correlationAt buffer offset in
      if gt correlation 0.9 && gt correlation (lastCorrelation st) then
        let st1 :=
          if gt correlation (bestCorrelation st)
          then mkScan (Z.of_nat offset) correlation (lastCorrelation st) true
          else mkScan (bestOffset st) (bestCorrelation st) (lastCorrelation st) true in
        scan buffer rest
             (mkScan (bestOffset st1) (bestCorrelation st1) correlation true)
      else if foundGoodCorrelation st then Refine offset st
      else
        scan buffer rest
             (mkScan (bestOffset st) (bestCorrelation st) correlation
                     (foundGoodCorrelation st))
  end.

(** The [-1] returned for "no pitch". *)
Definition noPitch : float := (-1)%float.

(** The path [autoCorrelate] takes: the early return of the signal-strength
    test, or the way the scan of the lags ends. *)
Inductive path :=
| TooWeak
| Scanned (e : scan_end).

Definition autoCorrelate_path (buffer : list float) : path :=
  if lt (rms buffer) 0.01 then TooWeak
  else Scanned (scan buffer (seq 0 (MAX_SAMPLES buffer)) scan_init).

Definition autoCorrelate (buffer : list float) (sampleRate : float) : float :=
  match autoCorrelate_path buffer with
  | TooWeak => noPitch
  | Scanned (Refine offset st) =>
      let shift :=
        ((num (correlationShift buffer (MAX_SAMPLES buffer) (Z.of_nat offset)) - 8)
         / 32)%float in
      (sampleRate / (num (bestOffset st) + shift))%float
  | Scanned (Exhausted st) =>
      if gt (bestCorrelation st) 0.01
      then (sampleRate / num (bestOffset st))%float
      else noPitch
  end.

(** The lag test of the scan, as a function of the lag alone: the
    correlation of the lag before ([1] before lag [0]) and the rising good
    correlation condition. *)
Definition previousCorrelation (buffer : list float) (offset : nat) : float :=
  match offset with
  | O => 1%float
  | S o => correlationAt buffer o
  end.

Definition risingGood (buffer : list float) (offset : nat) : bool :=
  gt (correlationAt buffer offset) 0.9
  && gt (correlationAt buffer offset) (previousCorrelation buffer offset).

(** The same sum over the block and its suffix from the lag, walked in
    step: what [absDiffSum] computes for a lag that is not negative. *)
Fixpoint zipAbsDiff (xs ys : list float) (n : nat) (acc : float) : float :=
  match n with
  | O => acc
  | S n' =>
      zipAbsDiff (tl xs) (tl ys) n'
        (acc + PrimFloat.abs (ofRead (hd_error xs) - ofRead (hd_error ys)))%float
  end.

Definition correlationZip (buffer : list float) (offset : nat) : float :=
  (1 - zipAbsDiff buffer (skipn offset buffer) (MAX_SAMPLES buffer) 0
       / num (Z.of_nat (MAX_SAMPLES buffer)))%float.

Definition risingGoodZip (buffer : list float) (offset : nat) : bool :=
  gt (correlationZip buffer offset) 0.9
  && gt (correlationZip buffer offset)
        match offset with
        | O => 1%float
        | S o => correlationZip buffer o
        end.

End Autocorrelator.
Import Autocorrelator.

(** ** The sub-lag refinement of the specification

    Section 4.1.1 in its own words, independent of [correlationShift]:
    [refine(samples, maxLag, coarseOffset)].  For [i = 0..15] it takes the
    cumulative absolute difference at lag [coarseOffset + i] and at lag
    [coarseOffset + i - 1], tracks the [i] that minimises the former, stops
    once the former exceeds the latter, and returns [(bestI - 8) / 32].
    The minimum is tracked by its index, and a step replaces it only with a
    strictly smaller difference, so the earliest step wins a tie. *)

Module RefineReference.

(** The sample at an index; one outside the block is not a number. *)
Definition sampleAt (samples : list float) (i : Z) : float :=
  if i <? 0 then PrimFloat.nan else nth (Z.to_nat i) samples PrimFloat.nan.

(** [acc + term j + term (j + 1) + ...], [count] terms, added in this order. *)
Fixpoint sumFrom (term : nat -> float) (j count : nat) (acc : float) : float :=
  match count with
  | O => acc
  | S count' => sumFrom term (S j) count' (acc + term j)%float
  end.

(** The cumulative absolute difference of the block and the block moved by
    [lag], over the first [maxLag] samples. *)
Definition lagDifference (samples : list float) (maxLag : nat) (lag : Z) : float :=
  sumFrom
    (fun j => PrimFloat.abs (sampleAt samples (Z.of_nat j)
                             - sampleAt samples (Z.of_nat j + lag))%float)
    0 maxLag 0%float.

(** Steps [i, i + 1, ...], at most [steps] of them, entered with the best
    step so far. *)
Fixpoint search (atLag : Z -> float) (coarseOffset : Z) (i steps bestI : nat) : nat :=
  match steps with
  | O => bestI
  | S steps' =>
      let here := atLag (coarseOffset + Z.of_nat i) in
      let before := atLag (coarseOffset + Z.of_nat i - 1) in
      let bestI' :=
        if PrimFloat.ltb here (atLag (coarseOffset + Z.of_nat bestI)) then i else bestI in
      if PrimFloat.ltb before here then bestI'
      else search atLag coarseOffset (S i) steps' bestI'
  end.

Definition bestStep (samples : list float) (maxLag : nat) (coarseOffset : Z) : nat :=
  search (lagDifference samples maxLag) coarseOffset 0 16 0.

Definition refine (samples : list float) (maxLag : nat) (coarseOffset : Z) : float :=
  ((num (Z.of_nat (bestStep samples maxLag coarseOffset)) - 8) / 32)%float.

End RefineReference.

(** ** PitchMapper *)

Module PitchMapper.
Section WithMath.
Context {M : MathObject}.

Definition noteFromPitch (frequency : float) : float :=
  let noteNum := (12 * (Math_log (frequency / 440) / Math_log 2))%float in
  (Math_round noteNum + 69)%float.

Definition frequencyFromNoteNumber (note : float) : float :=
  (440 * Math_pow 2 ((note - 69) / 12))%float.

Definition centsOffFromPitch (frequency note : float) : float :=
  Math_floor
    (1200 * Math_log (frequency / frequencyFromNoteNumber note) / Math_log 2)%float.

End WithMath.
End PitchMapper.
Import PitchMapper.

(** ** The pitch mapper of the specification

    Section 4.2 in its own words, over the real numbers:
    [round(12 * log2(freq / 440)) + 69] and
    [floor(1200 * log2(freq / frequencyOfNote(noteIndex)))] with
    [frequencyOfNote(n) = 440 * 2^((n - 69) / 12)]. *)

Module PitchReference.
Import Stdlib.Reals.Reals.







End PitchReference.

(** ** The note buffer and [findMostFrequent]

    An element of [noteBuffer] is a note name or [undefined] (what
    [noteStrings[note % 12]] is when the index is not one of [0..11]). *)

Module Notes.

Definition noteStrings : list string :=
  ["C"; "C#"; "D"; "D#"; "E"; "F"; "F#"; "G"; "G#"; "A"; "A#"; "B"]%string.

Definition jsval := option string.
Definition undefined : jsval := None.

(** [noteStrings[note % 12]]: the remainder has the sign of [note]. *)
Definition noteNameOf (note : float) : jsval :=
  match toInteger note with
  | Some z =>
      let r := Z.rem z 12 in
      if r <? 0 then undefined else nth_error noteStrings (Z.to_nat r)
  | None => undefined
  end.

(** [v === a]. *)
Definition strictEq (v a : jsval) : bool :=
  match v, a with
  | Some x, Some y => String.eqb x y
  | None, None => true
  | _, _ => false
  end.

(** [arr.filter(v => v === a).length]. *)
Definition occurrences (arr : list jsval) (a : jsval) : nat :=
  length (filter (fun v => strictEq v a) arr).

(** The comparator handed to [sort]: negative when [a] goes first. *)
Definition byOccurrences (arr : list jsval) (a b : string) : Z :=
  Z.of_nat (occurrences arr (Some a)) - Z.of_nat (occurrences arr (Some b)).

(** [Array.prototype.sort] with a comparator: a stable sort of the defined
    elements, the [undefined] ones after them.  The comparator sees the
    array as it was when [sort] was called. *)
Fixpoint insertSorted (cmp : string -> string -> Z) (x : string) (l : list string)
  : list string :=
  match l with
  | [] => [x]
  | y :: l' => if 0 <? cmp y x then x :: y :: l' else y :: insertSorted cmp x l'
  end.

Definition stableSort (cmp : string -> string -> Z) (l : list string) : list string :=
  fold_left (fun sorted x => insertSorted cmp x sorted) l [].

Definition definedOf (arr : list jsval) : list string :=
  flat_map (fun v => match v with Some s => [s] | None => [] end) arr.

Definition Array_sort (cmp : string -> string -> Z) (arr : list jsval) : list jsval :=
  map Some (stableSort cmp (definedOf arr))
  ++ repeat undefined (length arr - length (definedOf arr)).

(** [arr.pop()]: the last element ([undefined] of an empty array) and the
    array without it. *)
Definition Array_pop (arr : list jsval) : jsval * list jsval :=
  (last arr undefined, removelast arr).

(** [findMostFrequent(arr)]: the value returned and [arr] as the call
    leaves it ([sort] and [pop] both work on the array they are given). *)
Definition findMostFrequent (arr : list jsval) : jsval * list jsval :=
  Array_pop (Array_sort (byOccurrences arr) arr).

(** The truth of a value in [if (mostFrequentNote)]. *)
Definition truthy (v : jsval) : bool :=
  match v with
  | Some s => negb (String.eqb s "")
  | None => false
  end.

End Notes.
Import Notes.

(** ** The tuner state and one frame of [updatePitch] *)

Module Tuner.

(** What the page shows: [frequencyDisplay] is ["- Hz"] or the smoothed
    frequency (rendered by [toFixed(2)], which is not modelled), and
    [flatSharpIndicator] one of its four texts. *)
Inductive frequencyText :=
| NoHz
| Hz (smoothedFrequency : float).

Inductive indicator := Blank | InTune | Flat | Sharp.

Record tuner := mkTuner {
  frequencyBuffer : list float;
  smoothedCents : float;
  noteBuffer : list jsval;
  noteDisplay : string;
  frequencyDisplay : frequencyText;
  flatSharpIndicator : indicator;
  needle : float
}.

Definition frequencyBufferSize : nat := 10.
Definition noteBufferSize : nat := 5.

(** [setNeedle(cents)]: the angle of the rotation. *)
Definition setNeedle (cents : float) : float :=
  Math_max (-45) (Math_min 45 (cents / 2)).

Definition updateFlatSharpIndicator (cents : float) : indicator :=
  if lt (PrimFloat.abs cents) 5 then InTune
  else if lt cents 0 then Flat
  else Sharp.

(** The state the script starts from, with the page as [stopListening]
    leaves it. *)
Definition initial : tuner :=
  mkTuner [] 0%float [] "-"%string NoHz Blank (setNeedle 0).

(** [ac !== -1 && isFinite(ac) && ac > 0]. *)
Definition validPitch (ac : float) : bool :=
  negb (PrimFloat.eqb ac (-1)) && isFinite ac && gt ac 0.

(** [arr.push(x); if (arr.length > size) arr.shift();]. *)
Definition pushShift {A : Type} (size : nat) (arr : list A) (x : A) : list A :=
  let arr1 := arr ++ [x] in
  if (size <? length arr1)%nat then tl arr1 else arr1.

(** [arr.reduce((a, b) => a + b) / arr.length] of an array that is not
    empty ([reduce] throws on an empty one; [updatePitch] has just pushed). *)
Definition mean (arr : list float) : float :=
  match arr with
  | [] => PrimFloat.nan
  | a :: rest =>
      (fold_left (fun a b => a + b) rest a / num (Z.of_nat (length arr)))%float
  end.

Section WithMath.
Context {M : MathObject}.

(** The body of [updatePitch] after [ac] is known. *)
Definition frame (ac : float) (t : tuner) : tuner :=
  if validPitch ac then
    let frequencyBuffer' := pushShift frequencyBufferSize (frequencyBuffer t) ac in
    let smoothedFrequency := mean frequencyBuffer' in
    let note := noteFromPitch smoothedFrequency in
    let noteName := noteNameOf note in
    let cents := centsOffFromPitch smoothedFrequency note in
    let smoothedCents' := (smoothedCents t * 0.8 + cents * 0.2)%float in
    let pushed := pushShift noteBufferSize (noteBuffer t) noteName in
    let '(mostFrequentNote, noteBuffer') := findMostFrequent pushed in
    mkTuner frequencyBuffer' smoothedCents' noteBuffer'
            (match mostFrequentNote with
             | Some s => if truthy mostFrequentNote then s else noteDisplay t
             | None => noteDisplay t
             end)
            (Hz smoothedFrequency)
            (updateFlatSharpIndicator smoothedCents')
            (setNeedle smoothedCents')
  else
    mkTuner [] (smoothedCents t) [] "-"%string NoHz Blank (setNeedle 0).

Definition updatePitch (buffer : list float) (sampleRate : float) (t : tuner) : tuner :=
  frame (autoCorrelate buffer sampleRate) t.

(** Frames in a row, one per pitch estimate. *)
Definition frames (acs : list float) (t : tuner) : tuner :=
  fold_left (fun t ac => frame ac t) acs t.

End WithMath.

(** The frequency on show, if one is. *)
Definition shownFrequency (t : tuner) : option float :=
  match frequencyDisplay t with
  | Hz f => Some f
  | NoHz => None
  end.

(** *** Starting and stopping

    The tuner together with [isListening] and the label of the toggle
    button.  [audioContext], [analyser] and [microphone] are the browser's
    objects and are not part of the state. *)
Record session := mkSession {
  page : tuner;
  isListening : bool;
  toggleButton : string
}.

(** [stopListening()]. *)
Definition stopListening (a : session) : session :=
  mkSession (mkTuner [] (smoothedCents (page a)) [] "-"%string NoHz Blank (setNeedle 0))
        false "Start Tuner"%string.

End Tuner.
Import Tuner.

(** ** A [Math] object to run the model with

    One possible [Math.log] and [Math.pow], by range reduction and a
    truncated series.  It stands for the host's functions where the model
    is run on sample inputs; nothing is proved about its accuracy. *)

Module SampleMath.

Definition ln2 : float := 0.6931471805599453%float.

Definition atanhSeries (s : float) : float :=
  let z := (s * s)%float in
  (2 * s * (1 + z * (1 / 3 + z * (1 / 5 + z * (1 / 7 + z * (1 / 9 + z * (1 / 11
     + z * (1 / 13 + z * (1 / 15 + z * (1 / 17 + z * (1 / 19)))))))))))%float.

Definition log (x : float) : float :=
  if PrimFloat.is_nan x || lt x 0 then PrimFloat.nan
  else if PrimFloat.is_zero x then PrimFloat.neg_infinity
  else if PrimFloat.is_infinity x then PrimFloat.infinity
  else
    let '(m, e) := Z.frexp x in
    let '(m, e) := if lt m 0.7071067811865476 then ((m * 2)%float, e - 1) else (m, e) in
    (num e * ln2 + atanhSeries ((m - 1) / (m + 1)))%float.

Definition expSeries (r : float) : float :=
  (1 + r * (1 + r / 2 * (1 + r / 3 * (1 + r / 4 * (1 + r / 5 * (1 + r / 6 * (1 + r / 7
     * (1 + r / 8 * (1 + r / 9 * (1 + r / 10 * (1 + r / 11 * (1 + r / 12
     * (1 + r / 13)))))))))))))%float.

Definition exp (t : float) : float :=
  if PrimFloat.is_nan t then PrimFloat.nan
  else if gt t 709.8 then PrimFloat.infinity
  else if lt t (-745.2) then 0%float
  else
    match toInteger (Math_round (t / ln2)) with
    | Some k => Z.ldexp (expSeries (t - num k * ln2)) k
    | None => PrimFloat.nan
    end.

Definition pow (x y : float) : float :=
  if PrimFloat.is_zero y then 1%float else exp (y * log x).

#[export] Instance math : MathObject := {| Math_log := log; Math_pow := pow |}.

End SampleMath.

(** ** Sample blocks *)

Module Blocks.

(** A block whose correlation rises at lag 2, stops at lag 3. *)
Definition rising8 : list float :=
  [0.4921875; 0.515625; 0.4921875; 0.5; 0.5078125; 0.515625; 0.4921875; 0.515625]%float.

(** A block with no rising good correlation. *)
Definition step4 : list float := [1; 0; 0; 0]%float.

(** A block whose correlation is still rising at the last lag. *)
Definition alternating6 : list float := [1; 0; 1; 0; 1; 0]%float.

(** A block whose scan stops at lag 3 with a larger summed difference than
    at lag 2. *)
Definition stop8 : list float :=
  [0.484375; 0.53125; 0.515625; 0.53125; 0.5; 0.515625; 0.5; 0.515625]%float.

(** A block of the analyser's size, 2048: [0.5] but for two samples. *)
Definition late2048 : list float :=
  (repeat 0.5 1021 ++ [0.515625] ++ repeat 0.5 1023 ++ [0.5078125] ++ repeat 0.5 2)%float.

End Blocks.

(** * Properties *)

(** ** Facts about binary64 numbers *)

Module FloatFacts.

Lemma SFltb_trans a b c :
  SFltb a b = true -> SFltb b c = true -> SFltb a c = true.
Proof.
  unfold SFltb, SFcompare.
  destruct a as [sa|sa| |sa ma ea], b as [sb|sb| |sb mb eb], c as [sc|sc| |sc mc ec];
    try destruct sa; try destruct sb; try destruct sc;
    try discriminate; try reflexivity;
    rewrite ?Pos.compare_cont_spec; unfold Pos.switch_Eq;
    destruct (Z.compare_spec ea eb), (Z.compare_spec eb ec), (Z.compare_spec ea ec);
    try discriminate; try reflexivity; try lia; subst;
    destruct (Pos.compare_spec ma mb), (Pos.compare_spec mb mc), (Pos.compare_spec ma mc);
    simpl; try discriminate; try reflexivity; try lia.
Qed.

Lemma SFltb_irrefl a : SFltb a a = false.
Proof.
  unfold SFltb, SFcompare.
  destruct a as [s|s| |s m e]; try destruct s; try reflexivity;
    rewrite Z.compare_refl, ?Pos.compare_cont_spec, Pos.compare_refl; reflexivity.
Qed.

Lemma SFleb_not_ltb a b : SFleb a b = true -> SFltb b a = false.
Proof.
  unfold SFleb, SFltb, SFcompare.
  destruct a as [sa|sa| |sa ma ea], b as [sb|sb| |sb mb eb];
    try destruct sa; try destruct sb; try discriminate; try reflexivity;
    rewrite ?Pos.compare_cont_spec; unfold Pos.switch_Eq;
    rewrite (Z.compare_antisym ea eb), (Pos.compare_antisym ma mb);
    destruct (Z.compare ea eb), (Pos.compare ma mb); simpl; try discriminate; reflexivity.
Qed.

Lemma ltb_trans a b c :
  PrimFloat.ltb a b = true -> PrimFloat.ltb b c = true -> PrimFloat.ltb a c = true.
Proof. rewrite !FloatAxioms.ltb_spec. apply SFltb_trans. Qed.

Lemma ltb_irrefl a : PrimFloat.ltb a a = false.
Proof. rewrite FloatAxioms.ltb_spec. apply SFltb_irrefl. Qed.

Lemma leb_not_ltb a b : PrimFloat.leb a b = true -> PrimFloat.ltb b a = false.
Proof. rewrite FloatAxioms.leb_spec, FloatAxioms.ltb_spec. apply SFleb_not_ltb. Qed.

(** [a > b] and [b > c] give [a > c]; nothing is above itself. *)
Lemma gt_trans a b c : gt a b = true -> gt b c = true -> gt a c = true.
Proof. unfold gt. intros H1 H2. exact (ltb_trans _ _ _ H2 H1). Qed.

Lemma lt_not_lt_trans a b c : lt a b = false -> lt c b = true -> lt a c = false.
Proof.
  unfold lt. intros H1 H2. destruct (PrimFloat.ltb a c) eqn:E; [|reflexivity].
  rewrite (ltb_trans _ _ _ E H2) in H1. discriminate.
Qed.

(** The conversion of a positive integer below [2^53] is a positive finite
    number. *)
Lemma digits2_iter_xO p k :
  digits2_pos (Pos.iter xO p k) = (digits2_pos p + k)%positive.
Proof.
  induction k using Pos.peano_ind.
  - simpl. lia.
  - rewrite Pos.iter_succ. simpl. rewrite IHk. lia.
Qed.

Lemma digits2_size p : digits2_pos p = Pos.size p.
Proof. induction p; simpl; congruence. Qed.

Lemma digits2_bound p : Zpos p < 2 ^ 53 -> Zpos (digits2_pos p) <= 53.
Proof.
  intros H. rewrite digits2_size.
  assert (HH : 2 ^ Zpos (Pos.size p) <= 2 * Zpos p).
  { change 2 with (Zpos 2) at 1. rewrite <- Pos2Z.inj_pow.
    change (2 * Zpos p) with (Zpos (p~0)). apply Pos2Z.pos_le_pos, Pos.size_le. }
  destruct (Z.le_gt_cases (Zpos (Pos.size p)) 53) as [|G]; [assumption|].
  assert (2 ^ 54 <= 2 ^ Zpos (Pos.size p)) by (apply Z.pow_le_mono_r; lia).
  lia.
Qed.

Lemma binary_normalize_small p :
  Zpos p < 2 ^ 53 ->
  exists m e, binary_normalize prec emax (Zpos p) 0 false = S754_finite false m e.
Proof.
  intros H. pose proof (digits2_bound p H) as D.
  unfold binary_normalize, binary_round.
  set (d := digits2_pos p) in *.
  assert (F1 : fexp prec emax (Zpos d + 0) = Zpos d - 53)
    by (unfold fexp, SpecFloat.emin, prec, emax; lia).
  rewrite F1.
  assert (A : exists mz ez, shl_align p 0 (Zpos d - 53) = (mz, ez)
                            /\ Zpos (digits2_pos mz) = 53 /\ ez = Zpos d - 53).
  { unfold shl_align. destruct (Zpos d - 53 - 0) eqn:E.
    - exists p, 0. repeat split; fold d; lia.
    - lia.
    - exists (Pos.iter xO p p0), (Zpos d - 53). repeat split.
      rewrite digits2_iter_xO. fold d. lia. }
  destruct A as (mz & ez & -> & Dm & Ez).
  unfold binary_round_aux.
  assert (S1 : forall l,
             shr_fexp prec emax (Zpos mz) ez l = (shr_record_of_loc (Zpos mz) l, ez)).
  { intros l. unfold shr_fexp. simpl Zdigits2. rewrite Dm.
    replace (fexp prec emax (53 + ez) - ez) with 0
      by (unfold fexp, SpecFloat.emin, prec, emax; lia).
    reflexivity. }
  rewrite S1. simpl. rewrite S1. simpl.
  replace (ez <=? 971) with true by (symmetry; apply Z.leb_le; lia).
  eauto.
Qed.

Lemma num_positive z :
  0 < z < 2 ^ 53 -> exists m e, Prim2SF (num z) = S754_finite false m e.
Proof.
  intros [Hp Hb]. destruct z as [|p|p]; try lia.
  unfold num. rewrite FloatAxioms.of_uint63_spec, Uint63.of_Z_spec, Z.mod_small.
  - apply binary_normalize_small; assumption.
  - split; [lia|]. eapply Z.lt_trans; [exact Hb|]. reflexivity.
Qed.

(** [0 / n] is [0] for such an [n]. *)
Lemma zero_div_num z : 0 < z < 2 ^ 53 -> (0 / num z)%float = 0%float.
Proof.
  intros H. destruct (num_positive z H) as (m & e & E).
  apply Prim2SF_inj. rewrite FloatAxioms.div_spec, E. reflexivity.
Qed.

(** [0 / x] is [0] for every [x] above [0]. *)
Lemma zero_div_pos x : lt 0 x = true -> (0 / x)%float = 0%float.
Proof.
  unfold lt. rewrite FloatAxioms.ltb_spec. intros H.
  apply Prim2SF_inj. rewrite FloatAxioms.div_spec.
  change (Prim2SF 0) with (S754_zero false) in *.
  destruct (Prim2SF x) as [s|s| |s m e]; try destruct s; try discriminate; reflexivity.
Qed.

End FloatFacts.
Import FloatFacts.

(** ** The scan of the lags *)

Module ScanFacts.
Section Block.
Variable buffer : list float.

Lemma scan_app l1 l2 st :
  scan buffer (l1 ++ l2) st =
  match scan buffer l1 st with
  | Refine o s => Refine o s
  | Exhausted s => scan buffer l2 s
  end.
Proof.
  revert st. induction l1 as [|o l1 IH]; intros st; simpl; [reflexivity|].
  destruct (gt (correlationAt buffer o) 0.9 && gt (correlationAt buffer o) (lastCorrelation st));
    [apply IH|].
  destruct (foundGoodCorrelation st); [reflexivity | apply IH].
Qed.

(** Lags without a rising good correlation, before any was found, leave
    [bestOffset] and [bestCorrelation] as they were. *)
Lemma scan_quiet n : forall a st,
  foundGoodCorrelation st = false ->
  lastCorrelation st = previousCorrelation buffer a ->
  (forall j, (a <= j < a + n)%nat -> risingGood buffer j = false) ->
  scan buffer (seq a n) st =
  Exhausted (mkScan (bestOffset st) (bestCorrelation st)
                    (previousCorrelation buffer (a + n)) false).
Proof.
  induction n as [|n IH]; intros a st Hf Hl Hq.
  - simpl. rewrite Nat.add_0_r, <- Hl, <- Hf. destruct st; reflexivity.
  - simpl. rewrite Hl.
    assert (Ha : risingGood buffer a = false) by (apply Hq; lia).
    unfold risingGood in Ha. rewrite Ha, Hf.
    rewrite IH.
    + cbn [bestOffset bestCorrelation].
      replace (S a + n)%nat with (a + S n)%nat by lia. reflexivity.
    + reflexivity.
    + reflexivity.
    + intros j Hj. apply Hq. lia.
Qed.

(** A run of lags with a rising good correlation moves [bestOffset] to the
    last of them. *)
Lemma scan_rising n : forall a st rest,
  lastCorrelation st = previousCorrelation buffer a ->
  (forall x, gt x 0.9 = true -> gt x (lastCorrelation st) = true ->
             gt x (bestCorrelation st) = true) ->
  (forall j, (a <= j < a + S n)%nat -> risingGood buffer j = true) ->
  scan buffer (seq a (S n) ++ rest) st =
  scan buffer rest
       (mkScan (Z.of_nat (a + n)) (correlationAt buffer (a + n))
               (correlationAt buffer (a + n)) true).
Proof.
  induction n as [|n IH]; intros a st rest Hl Hb Hr.
  - assert (Ha : risingGood buffer a = true) by (apply Hr; lia).
    unfold risingGood in Ha. rewrite <- Hl in Ha.
    cbn [seq app scan]. rewrite Ha.
    apply andb_prop in Ha. destruct Ha as [H9 Hlast].
    rewrite (Hb _ H9 Hlast). cbn. rewrite Nat.add_0_r. reflexivity.
  - assert (Ha : risingGood buffer a = true) by (apply Hr; lia).
    unfold risingGood in Ha. rewrite <- Hl in Ha.
    change (seq a (S (S n)) ++ rest) with (a :: (seq (S a) (S n) ++ rest)).
    cbn [scan]. rewrite Ha.
    apply andb_prop in Ha. destruct Ha as [H9 Hlast].
    rewrite (Hb _ H9 Hlast). cbn [bestOffset bestCorrelation].
    rewrite IH.
    + replace (S a + n)%nat with (a + S n)%nat by lia. reflexivity.
    + reflexivity.
    + cbn. auto.
    + intros j Hj. apply Hr. lia.
Qed.

(** In a run of rising good lags each correlation is above the one before. *)
Lemma rising_chain k o :
  (forall j, (k <= j < o)%nat -> risingGood buffer j = true) ->
  forall j, (k <= j)%nat -> (j < o - 1)%nat ->
  lt (correlationAt buffer j) (correlationAt buffer (o - 1)) = true.
Proof.
  intros Hr j Hk Hj.
  remember (o - 1 - j)%nat as d eqn:Hd.
  revert j Hk Hj Hd. induction d as [|d IH]; intros j Hk Hj Hd; [lia|].
  assert (Hs : risingGood buffer (S j) = true) by (apply Hr; lia).
  unfold risingGood in Hs. apply andb_prop in Hs. destruct Hs as [_ Hs].
  cbn [previousCorrelation] in Hs. unfold gt in Hs.
  destruct (Nat.eq_dec (S j) (o - 1)) as [E|E].
  - rewrite <- E. exact Hs.
  - unfold lt. eapply ltb_trans; [exact Hs|]. apply (IH (S j)); lia.
Qed.

(** The scan of a block whose first rising good lag is [k] and whose first
    lag after [k] that is not is [o]. *)
Lemma scan_refines k o :
  (k < o < MAX_SAMPLES buffer)%nat ->
  (forall j, (j < k)%nat -> risingGood buffer j = false) ->
  (forall j, (k <= j < o)%nat -> risingGood buffer j = true) ->
  risingGood buffer o = false ->
  scan buffer (seq 0 (MAX_SAMPLES buffer)) scan_init =
  Refine o (mkScan (Z.of_nat (o - 1)) (correlationAt buffer (o - 1))
                   (correlationAt buffer (o - 1)) true).
Proof.
  intros Hko Hq Hr Ho.
  set (N := MAX_SAMPLES buffer) in *.
  replace N with (k + (S (o - 1 - k) + S (N - o - 1)))%nat by lia.
  rewrite !seq_app, !Nat.add_0_l, scan_app, scan_quiet; try reflexivity.
  2: { intros j Hj. apply Hq. lia. }
  rewrite scan_rising.
  - replace (k + (o - 1 - k))%nat with (o - 1)%nat by lia.
    replace (k + S (o - 1 - k))%nat with o by lia.
    cbn [seq scan lastCorrelation foundGoodCorrelation].
    unfold risingGood in Ho. replace o with (S (o - 1)) in Ho at 3 by lia.
    cbn [previousCorrelation] in Ho. rewrite Ho. reflexivity.
  - reflexivity.
  - cbn [bestCorrelation scan_init]. intros x H9 _.
    eapply gt_trans; [exact H9|]. reflexivity.
  - intros j Hj. apply Hr. lia.
Qed.

(** The scan of a block whose first rising good lag is [k], every lag from
    [k] on being one ([k] is [MAX_SAMPLES] when there is none). *)
Lemma scan_exhausts k :
  (k <= MAX_SAMPLES buffer)%nat ->
  (forall j, (j < k)%nat -> risingGood buffer j = false) ->
  (forall j, (k <= j < MAX_SAMPLES buffer)%nat -> risingGood buffer j = true) ->
  scan buffer (seq 0 (MAX_SAMPLES buffer)) scan_init =
  Exhausted
    (if (k <? MAX_SAMPLES buffer)%nat
     then mkScan (Z.of_nat (MAX_SAMPLES buffer - 1))
                 (correlationAt buffer (MAX_SAMPLES buffer - 1))
                 (correlationAt buffer (MAX_SAMPLES buffer - 1)) true
     else mkScan (-1) 0%float (previousCorrelation buffer (MAX_SAMPLES buffer)) false).
Proof.
  intros Hk Hq Hr.
  set (N := MAX_SAMPLES buffer) in *.
  destruct (Nat.ltb_spec k N) as [Hlt|Hge].
  - replace N with (k + S (N - 1 - k))%nat at 1 by lia.
    rewrite seq_app, Nat.add_0_l, scan_app, scan_quiet; try reflexivity.
    2: { intros j Hj. apply Hq. lia. }
    rewrite <- (app_nil_r (seq k (S (N - 1 - k)))), scan_rising.
    + replace (k + (N - 1 - k))%nat with (N - 1)%nat by lia. reflexivity.
    + reflexivity.
    + cbn [bestCorrelation scan_init]. intros x H9 _.
      eapply gt_trans; [exact H9|]. reflexivity.
    + intros j Hj. apply Hr. lia.
  - assert (k = N) by lia. subst k.
    rewrite scan_quiet; try reflexivity.
    intros j Hj. apply Hq. lia.
Qed.

End Block.
End ScanFacts.
Import ScanFacts.

(** ** The sub-lag search *)

Module ShiftFacts.
Section Block.
Variables (buffer : list float) (maxSamples : nat) (offset : Z).

(** The loop from step [a] on, entered with the least [cc] of the steps
    before [a]: it runs steps [a .. a + m - 1], stops early only at a step
    whose [cc] is above its [cc_prev], and leaves the least [cc] of the steps
    that ran. *)
Lemma shift_loop_seq n : forall a st,
  (forall i, (i < a)%nat -> lt (cc buffer maxSamples offset i) (best_correlation st) = false) ->
  ((1 <= a)%nat ->
   exists b, (b < a)%nat /\ best_offset st = Z.of_nat b /\ best_correlation st = cc buffer maxSamples offset b) ->
  exists m st',
    shift_loop buffer maxSamples offset (seq a n) st = (st', seq a m)
    /\ (m <= n)%nat /\ ((1 <= n)%nat -> (1 <= m)%nat)
    /\ (forall i, (a <= i)%nat -> (S i < a + m)%nat -> gt (cc buffer maxSamples offset i) (cc_prev buffer maxSamples offset i) = false)
    /\ ((m < n)%nat -> gt (cc buffer maxSamples offset (a + m - 1)) (cc_prev buffer maxSamples offset (a + m - 1)) = true)
    /\ (forall i, (i < a + m)%nat -> lt (cc buffer maxSamples offset i) (best_correlation st') = false)
    /\ ((1 <= a + m)%nat ->
        exists b, (b < a + m)%nat /\ best_offset st' = Z.of_nat b
                  /\ best_correlation st' = cc buffer maxSamples offset b).
Proof.
  induction n as [|n IH]; intros a st Hmin Hbest.
  - exists 0%nat, st. rewrite Nat.add_0_r. repeat split; auto; lia.
  - cbn [seq shift_loop]. unfold shift_step.
    set (st1 := if Nat.eqb a 0 || lt (cc buffer maxSamples offset a) (best_correlation st)
                then mkShift (Z.of_nat a) (cc buffer maxSamples offset a) else st).
    assert (Hmin1 : forall i, (i < S a)%nat -> lt (cc buffer maxSamples offset i) (best_correlation st1) = false).
    { intros i Hi. subst st1.
      destruct (Nat.eqb_spec a 0) as [Ha|Ha]; cbn [orb].
      - assert (i = a) by lia. subst i. apply ltb_irrefl.
      - destruct (lt (cc buffer maxSamples offset a) (best_correlation st)) eqn:E; cbn [best_correlation].
        + destruct (Nat.eq_dec i a) as [->|Hne]; [apply ltb_irrefl|].
          eapply lt_not_lt_trans; [apply Hmin; lia | exact E].
        + destruct (Nat.eq_dec i a) as [->|Hne]; [exact E | apply Hmin; lia]. }
    assert (Hbest1 : exists b, (b < S a)%nat /\ best_offset st1 = Z.of_nat b
                               /\ best_correlation st1 = cc buffer maxSamples offset b).
    { subst st1. destruct (Nat.eqb_spec a 0) as [Ha|Ha]; cbn [orb].
      - exists a. repeat split. lia.
      - destruct (lt (cc buffer maxSamples offset a) (best_correlation st)).
        + exists a. repeat split. lia.
        + destruct Hbest as (b & Hb & E1 & E2); [lia|]. exists b. repeat split; auto. }
    destruct (gt (cc buffer maxSamples offset a) (cc_prev buffer maxSamples offset a)) eqn:Hstop.
    + exists 1%nat, st1. replace (a + 1)%nat with (S a) by lia. repeat split; auto; try lia.
      intros _. replace (S a - 1)%nat with a by lia. exact Hstop.
    + destruct (IH (S a) st1 Hmin1 (fun _ => Hbest1))
        as (m & st' & E & Hm & Hm1 & Hrun & Hbrk & Hmin' & Hbest').
      rewrite E. exists (S m), st'.
      replace (a + S m)%nat with (S a + m)%nat by lia.
      repeat split; auto; try lia.
      * intros i Hi1 Hi2. destruct (Nat.eq_dec i a) as [->|Hne]; [exact Hstop|].
        apply Hrun; lia.
      * intros Hlt. apply Hbrk. lia.
Qed.

(** [correlationShift]: the steps that ran are [0 .. m - 1] with
    [1 <= m <= 16], none before the last had [cc > cc_prev], the last one
    had when [m < 16], and the result is a step [b] that ran with no [cc]
    of a step that ran below [cc b]. *)
Lemma correlationShift_spec :
  exists m b,
    (1 <= m <= 16)%nat
    /\ shiftSteps buffer maxSamples offset = seq 0 m
    /\ (forall i, (S i < m)%nat -> gt (cc buffer maxSamples offset i) (cc_prev buffer maxSamples offset i) = false)
    /\ ((m < 16)%nat -> gt (cc buffer maxSamples offset (m - 1)) (cc_prev buffer maxSamples offset (m - 1)) = true)
    /\ (b < m)%nat
    /\ correlationShift buffer maxSamples offset = Z.of_nat b
    /\ (forall i, (i < m)%nat -> lt (cc buffer maxSamples offset i) (cc buffer maxSamples offset b) = false).
Proof.
  destruct (shift_loop_seq 16 0 shift_init)
    as (m & st' & E & Hm & Hm1 & Hrun & Hbrk & Hmin & Hbest).
  - intros i Hi. lia.
  - intros Ha. lia.
  - rewrite !Nat.add_0_l in *.
    destruct Hbest as (b & Hb & E1 & E2); [lia|].
    exists m, b. unfold shiftSteps, correlationShift. rewrite E. cbn [fst snd].
    rewrite <- E2. repeat split; auto; try lia.
    intros i Hi. apply Hrun; lia.
Qed.

End Block.
End ShiftFacts.
Import ShiftFacts.

(** ** The sub-lag search and the refinement of the specification *)

Module RefineFacts.
Import RefineReference.

Lemma sampleAt_read samples i : sampleAt samples i = ofRead (read samples i).
Proof.
  unfold sampleAt, read. destruct (i <? 0); [reflexivity|].
  destruct (nth_error samples (Z.to_nat i)) as [x|] eqn:E; cbn [ofRead].
  - apply nth_error_nth. exact E.
  - apply nth_overflow. apply nth_error_None. exact E.
Qed.

Lemma sumFrom_absDiff samples lag : forall count j acc,
  sumFrom
    (fun j => PrimFloat.abs (sampleAt samples (Z.of_nat j)
                             - sampleAt samples (Z.of_nat j + lag))%float)
    j count acc
  = fold_left
      (fun acc k =>
         (acc + PrimFloat.abs (ofRead (read samples (Z.of_nat k))
                               - ofRead (read samples (Z.of_nat k + lag))))%float)
      (seq j count) acc.
Proof.
  induction count as [|count IH]; intros j acc; [reflexivity|].
  cbn [sumFrom seq fold_left]. rewrite IH, !sampleAt_read. reflexivity.
Qed.

(** The sums of the script are the cumulative absolute differences. *)
Lemma lagDifference_absDiffSum samples maxLag lag :
  lagDifference samples maxLag lag = absDiffSum samples maxLag lag.
Proof. apply sumFrom_absDiff. Qed.

(** One step of the specification's search. *)
Lemma search_step atLag coarseOffset i steps bestI :
  search atLag coarseOffset i (S steps) bestI
  = if PrimFloat.ltb (atLag (coarseOffset + Z.of_nat i - 1))
                     (atLag (coarseOffset + Z.of_nat i))
    then if PrimFloat.ltb (atLag (coarseOffset + Z.of_nat i))
                          (atLag (coarseOffset + Z.of_nat bestI))
         then i else bestI
    else search atLag coarseOffset (S i) steps
           (if PrimFloat.ltb (atLag (coarseOffset + Z.of_nat i))
                             (atLag (coarseOffset + Z.of_nat bestI))
            then i else bestI).
Proof. reflexivity. Qed.

Lemma fst_ran (A B : Type) (p : A * list B) (i : B) :
  fst (let '(st, ran) := p in (st, i :: ran)) = fst p.
Proof. destruct p. reflexivity. Qed.

Section Block.
Variables (buffer : list float) (maxSamples : nat) (offset : Z).

Lemma cc_lagDifference i :
  cc buffer maxSamples offset i = lagDifference buffer maxSamples (offset + Z.of_nat i).
Proof. symmetry. apply lagDifference_absDiffSum. Qed.

Lemma cc_prev_lagDifference i :
  cc_prev buffer maxSamples offset i
  = lagDifference buffer maxSamples (offset + Z.of_nat i - 1).
Proof. symmetry. apply lagDifference_absDiffSum. Qed.

(** The loop from step [a >= 1] on, entered with step [b] as the best:
    its [best_offset] is the step the specification's search tracks. *)
Lemma shift_loop_search : forall steps a b,
  (1 <= a)%nat ->
  best_offset
    (fst (shift_loop buffer maxSamples offset (seq a steps)
            (mkShift (Z.of_nat b) (cc buffer maxSamples offset b))))
  = Z.of_nat (search (lagDifference buffer maxSamples) offset a steps b).
Proof.
  induction steps as [|steps IH]; intros a b Ha; [reflexivity|].
  rewrite search_step. cbn [seq shift_loop]. unfold shift_step.
  replace (Nat.eqb a 0) with false by (symmetry; apply Nat.eqb_neq; lia).
  cbn [orb best_correlation]. unfold gt, lt.
  rewrite <- !cc_lagDifference, <- cc_prev_lagDifference.
  destruct (PrimFloat.ltb (cc buffer maxSamples offset a) (cc buffer maxSamples offset b));
    destruct (PrimFloat.ltb (cc_prev buffer maxSamples offset a) (cc buffer maxSamples offset a));
    try reflexivity; rewrite fst_ran; apply IH; lia.
Qed.

(** [correlationShift] returns the best step of the specification. *)
Lemma correlationShift_bestStep :
  correlationShift buffer maxSamples offset
  = Z.of_nat (bestStep buffer maxSamples offset).
Proof.
  unfold correlationShift, bestStep.
  change (seq 0 16) with (0%nat :: seq 1 15).
  rewrite (search_step (lagDifference buffer maxSamples) offset 0 15 0).
  cbn [shift_loop]. unfold shift_step.
  cbn [Nat.eqb orb]. unfold gt.
  rewrite <- !cc_lagDifference, <- cc_prev_lagDifference.
  assert (E : (if PrimFloat.ltb (cc buffer maxSamples offset 0) (cc buffer maxSamples offset 0)
               then 0%nat else 0%nat) = 0%nat)
    by (destruct (PrimFloat.ltb _ _); reflexivity).
  rewrite E.
  destruct (PrimFloat.ltb (cc_prev buffer maxSamples offset 0) (cc buffer maxSamples offset 0));
    [reflexivity|].
  rewrite fst_ran. apply (shift_loop_search 15 1 0). lia.
Qed.

End Block.
End RefineFacts.
Import RefineFacts.

(** ** The sums, walked in step *)

Module ZipFacts.

Lemma read_nat buffer k : read buffer (Z.of_nat k) = nth_error buffer k.
Proof.
  unfold read. destruct (Z.ltb_spec (Z.of_nat k) 0); [lia|].
  rewrite Nat2Z.id. reflexivity.
Qed.

Lemma hd_error_skipn {A} (l : list A) k : hd_error (skipn k l) = nth_error l k.
Proof.
  revert l. induction k as [|k IH]; intros [|x l]; cbn; auto.
Qed.

Lemma tl_skipn {A} (l : list A) k : tl (skipn k l) = skipn (S k) l.
Proof.
  revert l. induction k as [|k IH]; intros [|x l]; cbn; auto.
Qed.

Lemma absDiffSum_zip buffer n lag :
  absDiffSum buffer n (Z.of_nat lag) = zipAbsDiff buffer (skipn lag buffer) n 0.
Proof.
  unfold absDiffSum.
  change buffer with (skipn 0 buffer) at 3.
  change (skipn lag buffer) with (skipn (0 + lag) buffer).
  generalize 0%float as acc. generalize 0%nat as k.
  induction n as [|n IH]; intros k acc; cbn [seq fold_left zipAbsDiff]; [reflexivity|].
  rewrite IH, !tl_skipn, !hd_error_skipn, read_nat.
  replace (Z.of_nat k + Z.of_nat lag) with (Z.of_nat (k + lag)) by lia.
  rewrite read_nat. reflexivity.
Qed.

Lemma correlationAt_zip buffer offset :
  correlationAt buffer offset = correlationZip buffer offset.
Proof. unfold correlationAt, correlationZip. rewrite absDiffSum_zip. reflexivity. Qed.

Lemma risingGood_zip buffer offset :
  risingGood buffer offset = risingGoodZip buffer offset.
Proof.
  unfold risingGood, risingGoodZip. rewrite correlationAt_zip.
  destruct offset; cbn [previousCorrelation]; rewrite ?correlationAt_zip; reflexivity.
Qed.

(** A lag test decided on a range of lags by evaluation. *)
Lemma risingGood_on buffer (v : bool) a n :
  forallb (fun j => Bool.eqb (risingGoodZip buffer j) v) (seq a n) = true ->
  forall j, (a <= j < a + n)%nat -> risingGood buffer j = v.
Proof.
  intros H j Hj. rewrite forallb_forall in H.
  rewrite risingGood_zip. apply Bool.eqb_prop, H, in_seq. exact Hj.
Qed.

(** Decides a lag test on lags [a .. a + n - 1] of a given block. *)
Ltac lags v a n :=
  let j := fresh "j" in
  let Hj := fresh "Hj" in
  intros j Hj; apply (risingGood_on _ v a n);
  [vm_compute; reflexivity | cbn in Hj; lia].

End ZipFacts.
Import ZipFacts.

(** ** autoCorrelate *)

Module AutocorrelatorSpec.

Lemma strong_signal buffer :
  PrimFloat.leb 0.01 (rms buffer) = true -> lt (rms buffer) 0.01 = false.
Proof. apply leb_not_ltb. Qed.

(** C1.  On a block with RMS at least 0.01 whose first lag with a rising
    good correlation (above 0.9 and above the correlation of the lag
    before) is [k] and whose first later lag without one is [o], the scan
    stops at [o] and the estimate is
    [sampleRate / (bestOffset + (r - 8) / 32)]: [bestOffset] is [o - 1],
    the accepted lag whose correlation is above that of every other
    accepted lag, and [r] is the best step of the specification's sub-lag
    search from [o] over the cumulative absolute differences of the block,
    so that [(r - 8) / 32] is its [refine].  That search runs steps
    [0 .. m - 1] of its 16, stops at the first whose difference is above
    that of the lag before, and [r] is a step that ran with no smaller
    difference among those that ran (the earliest such step). *)
Theorem refined_estimate buffer sampleRate k o :
  PrimFloat.leb 0.01 (rms buffer) = true ->
  (k < o < MAX_SAMPLES buffer)%nat ->
  (forall j, (j < k)%nat -> risingGood buffer j = false) ->
  (forall j, (k <= j < o)%nat -> risingGood buffer j = true) ->
  risingGood buffer o = false ->
  autoCorrelate_path buffer
  = Scanned (Refine o (mkScan (Z.of_nat (o - 1)) (correlationAt buffer (o - 1))
                              (correlationAt buffer (o - 1)) true))
  /\ (forall j, (k <= j < o - 1)%nat ->
                lt (correlationAt buffer j) (correlationAt buffer (o - 1)) = true)
  /\ correlationShift buffer (MAX_SAMPLES buffer) (Z.of_nat o)
     = Z.of_nat (RefineReference.bestStep buffer (MAX_SAMPLES buffer) (Z.of_nat o))
  /\ autoCorrelate buffer sampleRate
     = (sampleRate
        / (num (Z.of_nat (o - 1))
           + RefineReference.refine buffer (MAX_SAMPLES buffer) (Z.of_nat o)))%float
  /\ exists m,
       (1 <= m <= 16)%nat
       /\ (RefineReference.bestStep buffer (MAX_SAMPLES buffer) (Z.of_nat o) < m)%nat
       /\ shiftSteps buffer (MAX_SAMPLES buffer) (Z.of_nat o) = seq 0 m
       /\ (forall i, (S i < m)%nat ->
             PrimFloat.ltb
               (RefineReference.lagDifference buffer (MAX_SAMPLES buffer)
                  (Z.of_nat o + Z.of_nat i - 1))
               (RefineReference.lagDifference buffer (MAX_SAMPLES buffer)
                  (Z.of_nat o + Z.of_nat i)) = false)
       /\ ((m < 16)%nat ->
           PrimFloat.ltb
             (RefineReference.lagDifference buffer (MAX_SAMPLES buffer)
                (Z.of_nat o + Z.of_nat (m - 1) - 1))
             (RefineReference.lagDifference buffer (MAX_SAMPLES buffer)
                (Z.of_nat o + Z.of_nat (m - 1))) = true)
       /\ (forall i, (i < m)%nat ->
             PrimFloat.ltb
               (RefineReference.lagDifference buffer (MAX_SAMPLES buffer)
                  (Z.of_nat o + Z.of_nat i))
               (RefineReference.lagDifference buffer (MAX_SAMPLES buffer)
                  (Z.of_nat o
                   + Z.of_nat (RefineReference.bestStep buffer (MAX_SAMPLES buffer)
                                 (Z.of_nat o)))) = false).
Proof.
  intros Hrms Hko Hq Hr Ho.
  assert (Hpath : autoCorrelate_path buffer =
                  Scanned (Refine o (mkScan (Z.of_nat (o - 1))
                                            (correlationAt buffer (o - 1))
                                            (correlationAt buffer (o - 1)) true))).
  { unfold autoCorrelate_path.
    rewrite (strong_signal _ Hrms), (scan_refines buffer k o Hko Hq Hr Ho).
    reflexivity. }
  pose proof (correlationShift_bestStep buffer (MAX_SAMPLES buffer) (Z.of_nat o)) as Hbest.
  split; [exact Hpath|].
  split; [intros j Hj; apply (rising_chain buffer k o Hr); lia|].
  split; [exact Hbest|].
  split.
  { unfold autoCorrelate, RefineReference.refine. rewrite Hpath, Hbest. reflexivity. }
  destruct (correlationShift_spec buffer (MAX_SAMPLES buffer) (Z.of_nat o))
    as (m & b & Hm & Hsteps & Hrun & Hbrk & Hb & Hshift & Hmin).
  assert (Eb : b = RefineReference.bestStep buffer (MAX_SAMPLES buffer) (Z.of_nat o))
    by (apply Nat2Z.inj; rewrite <- Hshift; exact Hbest).
  subst b. unfold gt, lt in *.
  exists m. split; [exact Hm|]. split; [exact Hb|]. split; [exact Hsteps|].
  split; [|split].
  - intros i Hi. rewrite <- cc_lagDifference, <- cc_prev_lagDifference. apply Hrun, Hi.
  - intros Hlt. rewrite <- cc_lagDifference, <- cc_prev_lagDifference. apply Hbrk, Hlt.
  - intros i Hi. rewrite <- !cc_lagDifference. apply Hmin, Hi.
Qed.

Lemma refined_estimate_witness :
  autoCorrelate_path Blocks.rising8
  = Scanned (Refine 3 (mkScan 2 (correlationAt Blocks.rising8 2)
                              (correlationAt Blocks.rising8 2) true))
  /\ correlationShift Blocks.rising8 4 3 = 1
  /\ RefineReference.refine Blocks.rising8 4 3 = (-0.21875)%float
  /\ autoCorrelate Blocks.rising8 44100 = 24757.894736842107%float.
Proof.
  destruct (refined_estimate Blocks.rising8 44100 2 3) as (H1 & _ & H3 & H4 & _).
  - vm_compute. reflexivity.
  - vm_compute. lia.
  - lags false 0%nat 2%nat.
  - lags true 2%nat 1%nat.
  - vm_compute. reflexivity.
  - split; [exact H1|].
    split; [etransitivity; [exact H3|]; vm_compute; reflexivity|].
    split; [vm_compute; reflexivity|].
    etransitivity; [exact H4|]. vm_compute. reflexivity.
Defined.

(** The scan that runs out of lags: when the first rising good lag is [k]
    and every lag from [k] on is one, the estimate is
    [sampleRate / (MAX_SAMPLES - 1)]; when no lag is one ([k] is
    [MAX_SAMPLES]) it is [-1]. *)
Lemma exhausted_estimate buffer sampleRate k :
  lt (rms buffer) 0.01 = false ->
  (k <= MAX_SAMPLES buffer)%nat ->
  (forall j, (j < k)%nat -> risingGood buffer j = false) ->
  (forall j, (k <= j < MAX_SAMPLES buffer)%nat -> risingGood buffer j = true) ->
  autoCorrelate buffer sampleRate =
  if (k <? MAX_SAMPLES buffer)%nat
  then (sampleRate / num (Z.of_nat (MAX_SAMPLES buffer - 1)))%float
  else noPitch.
Proof.
  intros Hrms Hk Hq Hr.
  unfold autoCorrelate, autoCorrelate_path.
  rewrite Hrms, (scan_exhausts buffer k Hk Hq Hr).
  destruct (Nat.ltb_spec k (MAX_SAMPLES buffer)) as [Hlt|Hge];
    cbn [bestCorrelation bestOffset]; [|reflexivity].
  assert (Hg : risingGood buffer (MAX_SAMPLES buffer - 1) = true) by (apply Hr; lia).
  unfold risingGood in Hg. apply andb_prop in Hg. destruct Hg as [H9 _].
  assert (H1 : gt (correlationAt buffer (MAX_SAMPLES buffer - 1)) 0.01 = true).
  { eapply gt_trans; [exact H9|]. reflexivity. }
  rewrite H1. reflexivity.
Qed.

(** C2, as the script has it.  On a block with RMS at least 0.01: when no
    lag has a rising good correlation the estimate is the "no pitch" value
    [-1], whatever correlations the lags reach ([bestCorrelation] is only
    written at a rising good lag, so it is still [0] when the scan ends);
    the unrefined [sampleRate / bestOffset] is what is returned when the
    lags from the first rising good one, [k], to the last, [MAX_SAMPLES - 1],
    all are rising good, and then [bestOffset] is that last lag. *)
Theorem unrefined_estimate buffer sampleRate :
  PrimFloat.leb 0.01 (rms buffer) = true ->
  ((forall j, (j < MAX_SAMPLES buffer)%nat -> risingGood buffer j = false) ->
   autoCorrelate_path buffer
   = Scanned (Exhausted (mkScan (-1) 0%float
                           (previousCorrelation buffer (MAX_SAMPLES buffer)) false))
   /\ autoCorrelate buffer sampleRate = noPitch)
  /\ (forall k,
         (k < MAX_SAMPLES buffer)%nat ->
         (forall j, (j < k)%nat -> risingGood buffer j = false) ->
         (forall j, (k <= j < MAX_SAMPLES buffer)%nat -> risingGood buffer j = true) ->
         autoCorrelate buffer sampleRate
         = (sampleRate / num (Z.of_nat (MAX_SAMPLES buffer - 1)))%float).
Proof.
  intros Hrms. split.
  - intros Hq. split.
    + unfold autoCorrelate_path. rewrite (strong_signal _ Hrms).
      rewrite (scan_exhausts buffer (MAX_SAMPLES buffer) (Nat.le_refl _) Hq).
      * rewrite Nat.ltb_irrefl. reflexivity.
      * intros j Hj. lia.
    + rewrite (exhausted_estimate buffer sampleRate (MAX_SAMPLES buffer)
                 (strong_signal _ Hrms) (Nat.le_refl _) Hq).
      * rewrite Nat.ltb_irrefl. reflexivity.
      * intros j Hj. lia.
  - intros k Hk Hq Hr.
    rewrite (exhausted_estimate buffer sampleRate k (strong_signal _ Hrms)
               (Nat.lt_le_incl _ _ Hk) Hq Hr).
    apply Nat.ltb_lt in Hk. rewrite Hk. reflexivity.
Qed.

Lemma unrefined_estimate_witness :
  autoCorrelate Blocks.step4 44100 = noPitch
  /\ autoCorrelate Blocks.alternating6 44100 = (44100 / 2)%float.
Proof.
  split.
  - apply (proj1 (unrefined_estimate Blocks.step4 44100%float
                    ltac:(vm_compute; reflexivity))).
    lags false 0%nat 2%nat.
  - apply (proj2 (unrefined_estimate Blocks.alternating6 44100%float
                    ltac:(vm_compute; reflexivity)) 2%nat).
    + vm_compute. lia.
    + lags false 0%nat 2%nat.
    + lags true 2%nat 1%nat.
Defined.

(** The block [1, 0, 0, 0] at 44100 Hz has RMS 0.5, no lag with a rising
    good correlation and correlation 1 at lag 0 and 0.5 at lag 1, both
    above 0.01; the estimate is [-1], not [sampleRate / bestOffset]
    (which is [-44100], [bestOffset] being [-1]). *)
Lemma fallback_counterexample :
  PrimFloat.leb 0.01 (rms Blocks.step4) = true
  /\ forallb (fun j => negb (risingGood Blocks.step4 j))
             (seq 0 (MAX_SAMPLES Blocks.step4)) = true
  /\ existsb (fun j => gt (correlationAt Blocks.step4 j) 0.01)
             (seq 0 (MAX_SAMPLES Blocks.step4)) = true
  /\ autoCorrelate Blocks.step4 44100 = noPitch
  /\ PrimFloat.eqb (autoCorrelate Blocks.step4 44100) (44100 / num (-1)) = false.
Proof. vm_compute. repeat split; reflexivity. Qed.

(** *** Weak signals *)

Lemma sumSquares_zeros n : sumSquares (repeat 0%float n) = 0%float.
Proof.
  unfold sumSquares, SIZE. rewrite repeat_length.
  assert (H : forall m k, (k + m <= n)%nat ->
            fold_left
              (fun acc i =>
                 let val := ofRead (read (repeat 0%float n) (Z.of_nat i)) in
                 (acc + val * val)%float)
              (seq k m) 0%float = 0%float).
  { induction m as [|m IH]; intros k Hk; [reflexivity|].
    cbn [seq fold_left]. rewrite read_nat, nth_error_repeat by lia.
    cbn [ofRead]. change (0 + 0 * 0)%float with 0%float. apply IH. lia. }
  apply H. lia.
Qed.

Lemma rms_zeros n :
  (0 < n)%nat -> Z.of_nat n < 2 ^ 53 -> rms (repeat 0%float n) = 0%float.
Proof.
  intros Hn Hb. unfold rms, SIZE.
  rewrite sumSquares_zeros, repeat_length, zero_div_num by lia. reflexivity.
Qed.

(** C5.  A block whose RMS is below 0.01 gets the "no pitch" value [-1] by
    the early return, before any lag is scanned; in particular every block
    of zeros does (of any length an array can have). *)
Theorem weak_signal_no_pitch :
  (forall buffer sampleRate,
      lt (rms buffer) 0.01 = true ->
      autoCorrelate_path buffer = TooWeak
      /\ autoCorrelate buffer sampleRate = noPitch)
  /\ (forall n sampleRate,
         (0 < n)%nat -> Z.of_nat n < 2 ^ 53 ->
         lt (rms (repeat 0%float n)) 0.01 = true
         /\ autoCorrelate_path (repeat 0%float n) = TooWeak
         /\ autoCorrelate (repeat 0%float n) sampleRate = noPitch).
Proof.
  assert (H : forall buffer sampleRate,
            lt (rms buffer) 0.01 = true ->
            autoCorrelate_path buffer = TooWeak
            /\ autoCorrelate buffer sampleRate = noPitch).
  { intros buffer sampleRate Hrms.
    unfold autoCorrelate, autoCorrelate_path. rewrite Hrms. split; reflexivity. }
  split; [exact H|].
  intros n sampleRate Hn Hb.
  assert (Hrms : lt (rms (repeat 0%float n)) 0.01 = true)
    by (rewrite rms_zeros by assumption; reflexivity).
  split; [exact Hrms | apply H; exact Hrms].
Qed.

Lemma weak_signal_no_pitch_witness :
  (lt (rms [0.0078125; 0; 0; 0]%float) 0.01 = true
   /\ autoCorrelate [0.0078125; 0; 0; 0]%float 44100 = noPitch)
  /\ autoCorrelate (repeat 0%float 2048) 44100 = noPitch.
Proof.
  split.
  - split; [vm_compute; reflexivity|].
    apply (proj1 weak_signal_no_pitch [0.0078125; 0; 0; 0]%float 44100%float).
    vm_compute. reflexivity.
  - apply (proj2 weak_signal_no_pitch 2048%nat 44100%float); [lia|].
    vm_compute. reflexivity.
Defined.

(** The empty block: its RMS is [NaN], there is no lag, and the estimate is
    [-1] as well. *)
Lemma empty_block_no_pitch sampleRate :
  autoCorrelate_path [] = Scanned (Exhausted scan_init)
  /\ autoCorrelate [] sampleRate = noPitch.
Proof. split; reflexivity. Qed.

(** *** Reads *)

(** X2.  The reads of the scan, [buffer[i]] and [buffer[i + offset]] with
    [i] and [offset] below [MAX_SAMPLES], are within the block. *)
Lemma scan_reads_inBounds buffer i offset :
  (i < MAX_SAMPLES buffer)%nat -> (offset < MAX_SAMPLES buffer)%nat ->
  inBounds buffer (Z.of_nat i) = true
  /\ inBounds buffer (Z.of_nat i + Z.of_nat offset) = true.
Proof.
  unfold MAX_SAMPLES, SIZE, inBounds. intros Hi Ho.
  pose proof (Nat.div_mod_eq (length buffer) 2) as E.
  pose proof (Nat.mod_upper_bound (length buffer) 2 ltac:(lia)) as B.
  split; apply andb_true_intro; split;
    try (apply Z.leb_le; lia); apply Z.ltb_lt; lia.
Qed.

Lemma scan_reads_inBounds_witness :
  inBounds Blocks.rising8 3 = true /\ inBounds Blocks.rising8 (3 + 3) = true.
Proof.
  apply (scan_reads_inBounds Blocks.rising8 3 3); vm_compute; lia.
Defined.

(** X3.  The reads of [correlationShift] are within the block when
    [1 <= offset] and [offset + maxSamples + 15 <= buffer.length]. *)
Lemma shift_reads_inBounds buffer maxSamples offset :
  1 <= offset ->
  offset + Z.of_nat maxSamples + 15 <= Z.of_nat (length buffer) ->
  forallb (inBounds buffer) (shiftReads buffer maxSamples offset) = true.
Proof.
  intros Ho Hb. apply forallb_forall. intros x Hx.
  unfold shiftReads in Hx. apply in_flat_map in Hx. destruct Hx as (i & Hi & Hx).
  apply in_flat_map in Hx. destruct Hx as (j & Hj & Hx).
  apply in_seq in Hj.
  destruct (correlationShift_spec buffer maxSamples offset)
    as (m & b & Hm & Hsteps & _).
  rewrite Hsteps in Hi. apply in_seq in Hi.
  unfold inBounds. apply andb_true_intro.
  cbn [In] in Hx. destruct Hx as [<-|[<-|[<-|[]]]];
    split; try (apply Z.leb_le; lia); apply Z.ltb_lt; lia.
Qed.

Lemma shift_reads_inBounds_witness :
  forallb (inBounds Blocks.late2048) (shiftReads Blocks.late2048 1024 100) = true.
Proof.
  apply (shift_reads_inBounds Blocks.late2048 1024 100); [lia|].
  vm_compute. discriminate.
Defined.

(** The scan of [late2048], 2048 samples of [0.5] but for
    [buffer[1021] = 0.515625] and [buffer[2045] = 0.5078125]: its first
    rising good lag is 1022 and lag 1023 is not one. *)
Lemma late2048_path :
  autoCorrelate_path Blocks.late2048 =
  Scanned (Refine 1023 (mkScan 1022 (correlationAt Blocks.late2048 1022)
                               (correlationAt Blocks.late2048 1022) true)).
Proof.
  unfold autoCorrelate_path.
  replace (lt (rms Blocks.late2048) 0.01) with false by (vm_compute; reflexivity).
  rewrite (scan_refines Blocks.late2048 1022 1023); [reflexivity| | | |].
  - vm_compute. lia.
  - lags false 0%nat 1022%nat.
  - lags true 1022%nat 1%nat.
  - rewrite risingGood_zip. vm_compute. reflexivity.
Qed.

(** C8 on a block of the analyser's size, where the script reads past the
    end.  On [late2048] the scan stops at lag 1023 and calls
    [correlationShift(buffer, 1024, 1023)]; none of the 16 steps sees
    [cc > cc_prev], so all of them run, and the reads [buffer[j + 1023 + i]]
    reach index 2048, where the block of 2048 samples has no element. *)
Theorem late2048_reads_past_end :
  length Blocks.late2048 = 2048%nat
  /\ (exists st, autoCorrelate_path Blocks.late2048 = Scanned (Refine 1023 st))
  /\ shiftSteps Blocks.late2048 1024 1023 = seq 0 16
  /\ existsb (Z.eqb 2048) (shiftReads Blocks.late2048 1024 1023) = true
  /\ inBounds Blocks.late2048 2048 = false
  /\ read Blocks.late2048 2048 = None.
Proof.
  split; [reflexivity|].
  split; [eexists; exact late2048_path|].
  assert (Hsteps : shiftSteps Blocks.late2048 1024 1023 = seq 0 16)
    by (vm_compute; reflexivity).
  split; [exact Hsteps|].
  unfold shiftReads. rewrite Hsteps.
  repeat split; vm_compute; reflexivity.
Qed.

End AutocorrelatorSpec.

(** ** The note buffer *)

Module NotesFacts.

Lemma insertSorted_length cmp x l :
  length (insertSorted cmp x l) = S (length l).
Proof.
  induction l as [|y l IH]; cbn; [reflexivity|].
  destruct (0 <? cmp y x); cbn; [reflexivity | rewrite IH; reflexivity].
Qed.

Lemma stableSort_length cmp l : length (stableSort cmp l) = length l.
Proof.
  unfold stableSort.
  assert (H : forall acc, length (fold_left (fun sorted x => insertSorted cmp x sorted) l acc)
                          = (length acc + length l)%nat).
  { induction l as [|x l IH]; intros acc; cbn; [lia|].
    rewrite IH, insertSorted_length. lia. }
  rewrite H. reflexivity.
Qed.

Lemma definedOf_length arr : (length (definedOf arr) <= length arr)%nat.
Proof.
  unfold definedOf. induction arr as [|[s|] arr IH]; cbn; lia.
Qed.

Lemma Array_sort_length cmp arr : length (Array_sort cmp arr) = length arr.
Proof.
  unfold Array_sort.
  rewrite length_app, length_map, stableSort_length, repeat_length.
  pose proof (definedOf_length arr). lia.
Qed.

Lemma removelast_length {A} (l : list A) : length (removelast l) = (length l - 1)%nat.
Proof.
  induction l as [|x [|y l] IH]; cbn in *; try reflexivity.
  rewrite IH. lia.
Qed.

(** [findMostFrequent] leaves its array one element shorter. *)
Lemma findMostFrequent_length arr :
  length (snd (findMostFrequent arr)) = (length arr - 1)%nat.
Proof.
  unfold findMostFrequent, Array_pop. cbn [snd].
  rewrite removelast_length, Array_sort_length. reflexivity.
Qed.

(** On an array of one element it returns the element and empties the
    array. *)
Lemma findMostFrequent_one v : findMostFrequent [v] = (v, []).
Proof. destruct v; reflexivity. Qed.

Lemma pushShift_length {A} size (arr : list A) x :
  (length arr <= size)%nat -> (length (pushShift size arr x) <= size)%nat.
Proof.
  intros H. unfold pushShift.
  destruct (Nat.ltb_spec size (length (arr ++ [x]))) as [Hlt|Hge]; [|exact Hge].
  rewrite length_tl, length_app. cbn. lia.
Qed.

End NotesFacts.
Import NotesFacts.

(** ** Frames *)

Module TunerSpec.
Section WithMath.
Context {M : MathObject}.

Lemma frame_valid ac t :
  validPitch ac = true ->
  frequencyBuffer (frame ac t) = pushShift frequencyBufferSize (frequencyBuffer t) ac
  /\ shownFrequency (frame ac t)
     = Some (mean (pushShift frequencyBufferSize (frequencyBuffer t) ac))
  /\ noteBuffer (frame ac t)
     = snd (findMostFrequent
              (pushShift noteBufferSize (noteBuffer t)
                 (noteNameOf
                    (noteFromPitch
                       (mean (pushShift frequencyBufferSize (frequencyBuffer t) ac))))))
  /\ smoothedCents (frame ac t)
     = (smoothedCents t * 0.8
        + centsOffFromPitch
            (mean (pushShift frequencyBufferSize (frequencyBuffer t) ac))
            (noteFromPitch (mean (pushShift frequencyBufferSize (frequencyBuffer t) ac)))
          * 0.2)%float.
Proof.
  intros H. unfold frame. rewrite H.
  destruct (findMostFrequent _) as [v nb]. repeat split.
Qed.

Lemma frame_invalid ac t :
  validPitch ac = false ->
  frame ac t = mkTuner [] (smoothedCents t) [] "-"%string NoHz Blank 0%float.
Proof. intros H. unfold frame. rewrite H. reflexivity. Qed.

(** The three ways an estimate is not a valid pitch. *)
Lemma not_valid ac :
  ac = noPitch \/ isFinite ac = false \/ gt ac 0 = false -> validPitch ac = false.
Proof.
  unfold validPitch. intros [->|[H|H]].
  - reflexivity.
  - rewrite H, andb_false_r. reflexivity.
  - rewrite H, andb_false_r. reflexivity.
Qed.

Lemma frames_app l1 l2 t : frames (l1 ++ l2) t = frames l2 (frames l1 t).
Proof. unfold frames. apply fold_left_app. Qed.

(** C6.  A frame whose estimate is not a valid pitch (it is the [-1] of "no
    pitch", or not finite, or not above 0) empties [frequencyBuffer] and
    [noteBuffer], whatever they held, and sets the page to its no-signal
    state: ["-"], ["- Hz"], no flat/sharp text and the needle at angle 0. *)
Theorem no_pitch_resets ac t :
  ac = noPitch \/ isFinite ac = false \/ gt ac 0 = false ->
  frequencyBuffer (frame ac t) = []
  /\ noteBuffer (frame ac t) = []
  /\ noteDisplay (frame ac t) = "-"%string
  /\ frequencyDisplay (frame ac t) = NoHz
  /\ flatSharpIndicator (frame ac t) = Blank
  /\ needle (frame ac t) = 0%float.
Proof.
  intros H. rewrite (frame_invalid ac t (not_valid ac H)). repeat split.
Qed.

(** C7.  Such a frame leaves [smoothedCents] as it was, while the needle
    goes to angle 0 and both buffers are emptied. *)
Theorem no_pitch_keeps_smoothedCents ac t :
  ac = noPitch \/ isFinite ac = false \/ gt ac 0 = false ->
  smoothedCents (frame ac t) = smoothedCents t
  /\ needle (frame ac t) = 0%float
  /\ frequencyBuffer (frame ac t) = []
  /\ noteBuffer (frame ac t) = [].
Proof.
  intros H. rewrite (frame_invalid ac t (not_valid ac H)). repeat split.
Qed.

(** One frame keeps the buffers within their sizes. *)
Lemma frame_bounded ac t :
  (length (frequencyBuffer t) <= 10)%nat -> (length (noteBuffer t) <= 5)%nat ->
  (length (frequencyBuffer (frame ac t)) <= 10)%nat
  /\ (length (noteBuffer (frame ac t)) <= 5)%nat.
Proof.
  intros Hf Hn. destruct (validPitch ac) eqn:V.
  - destruct (frame_valid ac t V) as (E1 & _ & E2 & _). rewrite E1, E2. split.
    + apply pushShift_length. exact Hf.
    + rewrite findMostFrequent_length.
      pose proof (pushShift_length noteBufferSize (noteBuffer t)
                    (noteNameOf
                       (noteFromPitch
                          (mean (pushShift frequencyBufferSize (frequencyBuffer t) ac))))
                    Hn) as B.
      unfold noteBufferSize in *. lia.
  - rewrite (frame_invalid ac t V). cbn. split; lia.
Qed.

Lemma frames_bounded acs : forall t,
  (length (frequencyBuffer t) <= 10)%nat -> (length (noteBuffer t) <= 5)%nat ->
  (length (frequencyBuffer (frames acs t)) <= 10)%nat
  /\ (length (noteBuffer (frames acs t)) <= 5)%nat.
Proof.
  induction acs as [|ac acs IH]; intros t Hf Hn; [split; assumption|].
  destruct (frame_bounded ac t Hf Hn) as [Hf' Hn']. exact (IH _ Hf' Hn').
Qed.

(** C9.  After any frames, with valid estimates and others in any order,
    from the empty state, [frequencyBuffer] holds at most 10 elements and
    [noteBuffer] at most 5. *)
Theorem histories_bounded acs :
  (length (frequencyBuffer (frames acs initial)) <= 10)%nat
  /\ (length (noteBuffer (frames acs initial)) <= 5)%nat.
Proof. apply frames_bounded; cbn; lia. Qed.

(** The same for frames fed with blocks. *)
Lemma updatePitch_bounded blocks :
  let t := fold_left (fun t b => updatePitch (fst b) (snd b) t) blocks initial in
  (length (frequencyBuffer t) <= 10)%nat /\ (length (noteBuffer t) <= 5)%nat.
Proof.
  cbn zeta.
  assert (E : forall t,
            fold_left (fun t b => updatePitch (fst b) (snd b) t) blocks t
            = frames (map (fun b => autoCorrelate (fst b) (snd b)) blocks) t).
  { induction blocks as [|b blocks IH]; intros t; [reflexivity|]. cbn. apply IH. }
  rewrite E. apply frames_bounded; cbn; lia.
Qed.

(** [findMostFrequent] sorts and pops [noteBuffer] itself, so a frame that
    pushes a note onto an empty [noteBuffer] leaves it empty again. *)
Lemma frame_noteBuffer_empty ac t :
  noteBuffer t = [] -> noteBuffer (frame ac t) = [].
Proof.
  intros Hn. destruct (validPitch ac) eqn:V.
  - destruct (frame_valid ac t V) as (_ & _ & E & _). rewrite E, Hn.
    unfold pushShift. cbn [app length Nat.ltb Nat.leb noteBufferSize].
    rewrite findMostFrequent_one. reflexivity.
  - rewrite (frame_invalid ac t V). reflexivity.
Qed.

(** C3 on the script: from the empty state [noteBuffer] is empty after
    every frame, valid or not; it never holds the recent note names. *)
Theorem noteBuffer_never_keeps_a_note acs :
  noteBuffer (frames acs initial) = [].
Proof.
  assert (H : forall t, noteBuffer t = [] -> noteBuffer (frames acs t) = []).
  { induction acs as [|ac acs IH]; intros t Hn; [exact Hn|].
    cbn. apply IH, frame_noteBuffer_empty, Hn. }
  apply H. reflexivity.
Qed.

(** Pushing the same estimate: the run of copies of [F] at the end of
    [frequencyBuffer] grows until it fills the buffer. *)
Lemma pushShift_same (F : float) old j :
  (length old + j <= 10)%nat ->
  exists old' j',
    pushShift frequencyBufferSize (old ++ repeat F j) F = old' ++ repeat F j'
    /\ (length old' + j' <= 10)%nat /\ (Nat.min (S j) 10 <= j')%nat.
Proof.
  intros H. unfold pushShift, frequencyBufferSize.
  rewrite <- app_assoc, <- repeat_cons.
  change (F :: repeat F j) with (repeat F (S j)).
  rewrite length_app, repeat_length.
  destruct (Nat.ltb_spec 10 (length old + S j)) as [Hlt|Hge].
  - destruct old as [|x old].
    + exists [], j. cbn in *. repeat split; lia.
    + exists old, (S j). cbn in *. repeat split; lia.
  - exists old, (S j). repeat split; lia.
Qed.

Lemma frames_same F n : forall t old j,
  validPitch F = true ->
  frequencyBuffer t = old ++ repeat F j ->
  (length old + j <= 10)%nat ->
  exists old' j',
    frequencyBuffer (frames (repeat F n) t) = old' ++ repeat F j'
    /\ (length old' + j' <= 10)%nat /\ (Nat.min (j + n) 10 <= j')%nat.
Proof.
  induction n as [|n IH]; intros t old j V E H.
  - exists old, j. cbn. repeat split; auto; lia.
  - destruct (pushShift_same F old j H) as (old1 & j1 & E1 & H1 & M1).
    destruct (frame_valid F t V) as (Ef & _).
    rewrite E, E1 in Ef.
    destruct (IH (frame F t) old1 j1 V Ef H1) as (old' & j' & E' & H' & M').
    exists old', j'. cbn [repeat frames fold_left] in *. repeat split; auto; lia.
Qed.

(** C10, as binary64 arithmetic has it.  After at least 10 frames in a row
    with the same valid estimate [F], from a state whose [frequencyBuffer]
    is within its size, [frequencyBuffer] is ten copies of [F] and the
    smoothed frequency is their mean as the script computes it: the sum
    [F + F + ... + F], added left to right, divided by 10. *)
Theorem steady_pitch_mean F n t :
  validPitch F = true -> (10 <= n)%nat ->
  (length (frequencyBuffer t) <= 10)%nat ->
  frequencyBuffer (frames (repeat F n) t) = repeat F 10
  /\ shownFrequency (frames (repeat F n) t)
     = Some ((F + F + F + F + F + F + F + F + F + F) / 10)%float.
Proof.
  intros V Hn Hlen.
  assert (Hbuf : forall m u, (10 <= m)%nat -> (length (frequencyBuffer u) <= 10)%nat ->
                 frequencyBuffer (frames (repeat F m) u) = repeat F 10).
  { intros m u Hm Hu.
    destruct (frames_same F m u (frequencyBuffer u) 0%nat V) as (old' & j' & E' & H' & M').
    - cbn. rewrite app_nil_r. reflexivity.
    - lia.
    - assert (j' = 10%nat) by lia. subst j'.
      destruct old' as [|x old']; [exact E'|cbn in H'; lia]. }
  split; [apply Hbuf; assumption|].
  destruct n as [|n]; [lia|].
  assert (Hlast : frames (repeat F (S n)) t = frame F (frames (repeat F n) t)).
  { change (repeat F (S n)) with (F :: repeat F n).
    rewrite repeat_cons, frames_app. reflexivity. }
  pose proof (Hbuf (S n) t Hn Hlen) as E. rewrite Hlast in *.
  destruct (frame_valid F (frames (repeat F n) t) V) as (Ef & Es & _).
  rewrite Es, <- Ef, E. reflexivity.
Qed.

End WithMath.

Existing Instance SampleMath.math.

Lemma no_pitch_resets_witness :
  frequencyBuffer (frame noPitch (frames [440; 440; 441; 30]%float initial)) = []
  /\ noteBuffer (frame noPitch (frames [440; 440; 441; 30]%float initial)) = []
  /\ needle (frame noPitch (frames [440; 440; 441; 30]%float initial)) = 0%float.
Proof.
  destruct (no_pitch_resets noPitch (frames [440; 440; 441; 30]%float initial))
    as (H1 & H2 & _ & _ & _ & H6).
  - left. reflexivity.
  - repeat split; assumption.
Defined.

Lemma no_pitch_keeps_smoothedCents_witness :
  smoothedCents (frames [440; 440; 441; 30]%float initial) = 8.56%float
  /\ smoothedCents (frame PrimFloat.nan (frames [440; 440; 441; 30]%float initial))
     = 8.56%float
  /\ needle (frame PrimFloat.nan (frames [440; 440; 441; 30]%float initial)) = 0%float.
Proof.
  destruct (no_pitch_keeps_smoothedCents PrimFloat.nan
              (frames [440; 440; 441; 30]%float initial))
    as (H1 & H2 & _).
  - right. left. reflexivity.
  - split; [vm_compute; reflexivity|]. split; [|exact H2].
    rewrite H1. vm_compute. reflexivity.
Defined.

Lemma steady_pitch_mean_witness :
  frequencyBuffer (frames (repeat 440%float 12) (frames [30; 441]%float initial))
  = repeat 440%float 10
  /\ shownFrequency (frames (repeat 440%float 12) (frames [30; 441]%float initial))
     = Some 440%float.
Proof.
  destruct (steady_pitch_mean 440%float 12 (frames [30; 441]%float initial))
    as (H1 & H2).
  - reflexivity.
  - lia.
  - vm_compute. lia.
  - split; [exact H1|]. rewrite H2. reflexivity.
Defined.

(** The estimate [433.4152334152334], which is [44100 / (102 + (0 - 8) / 32)],
    what [autoCorrelate] returns at 44100 Hz for [bestOffset = 102] and a
    sub-lag result of [0]: ten frames with it leave ten copies of it in
    [frequencyBuffer], and the smoothed frequency is [433.4152334152333],
    another number. *)
Lemma steady_pitch_counterexample :
  (44100 / (num 102 + (num 0 - 8) / 32))%float = 433.4152334152334%float
  /\ validPitch 433.4152334152334 = true
  /\ frequencyBuffer (frames (repeat 433.4152334152334%float 10) initial)
     = repeat 433.4152334152334%float 10
  /\ shownFrequency (frames (repeat 433.4152334152334%float 10) initial)
     = Some 433.4152334152333%float
  /\ PrimFloat.eqb 433.4152334152333 433.4152334152334 = false.
Proof. vm_compute. repeat split; reflexivity. Qed.

(** Two valid frames from the empty state: [noteBuffer] is empty, not
    [["A"; "A"]]; and a call on three notes takes one out and reorders the
    rest. *)
Lemma noteBuffer_after_two_frames :
  noteBuffer (frames [440; 440]%float initial) = []
  /\ noteDisplay (frames [440; 440]%float initial) = "A"%string
  /\ findMostFrequent [Some "A"; Some "B"; Some "A"]%string
     = (Some "A"%string, [Some "B"; Some "A"]%string).
Proof. vm_compute. repeat split; reflexivity. Qed.

End TunerSpec.

(** ** The reference pitch mapper at two frequencies *)

Module PitchReferenceFacts.
Import Stdlib.Reals.Reals Stdlib.micromega.Lra.
Import PitchReference.










End PitchReferenceFacts.

(** ** The pitch mapper at concert pitch and at an underflowing frequency *)

Module PitchMapperSpec.


Section WithMath.
Context {M : MathObject}.


(** X1.  With a [Math] object whose [Math.log(1)] is [0], whose
    [Math.log(2)] is above [0] and whose [Math.pow(2, 0)] is [1], 440 Hz is
    note 69, note 69 is 440 Hz, and 440 Hz is 0 cents off note 69. *)
Theorem concert_pitch :
  Math_log 1 = 0%float -> lt 0 (Math_log 2) = true -> Math_pow 2 0 = 1%float ->
  noteFromPitch 440 = 69%float
  /\ frequencyFromNoteNumber 69 = 440%float
  /\ centsOffFromPitch 440 69 = 0%float.
Proof.
  intros L1 L2 P0.
  assert (F69 : frequencyFromNoteNumber 69 = 440%float).
  { unfold frequencyFromNoteNumber.
    change ((69 - 69) / 12)%float with 0%float. rewrite P0. reflexivity. }
  repeat split.
  - unfold noteFromPitch. change (440 / 440)%float with 1%float.
    rewrite L1, (zero_div_pos _ L2). reflexivity.
  - exact F69.
  - unfold centsOffFromPitch. rewrite F69. change (440 / 440)%float with 1%float.
    rewrite L1. change (1200 * 0)%float with 0%float.
    rewrite (zero_div_pos _ L2). reflexivity.
Qed.


End WithMath.



Lemma concert_pitch_witness :
  @noteFromPitch SampleMath.math 440 = 69%float
  /\ @frequencyFromNoteNumber SampleMath.math 69 = 440%float
  /\ @centsOffFromPitch SampleMath.math 440 69 = 0%float.
Proof.
  apply (@concert_pitch SampleMath.math); vm_compute; reflexivity.
Defined.

End PitchMapperSpec.

(** * Further properties *)

(** ** More facts about binary64 order *)

Module FloatOrder.

Lemma SFcompare_antisym a b :
  SFcompare b a = option_map CompOpp (SFcompare a b).
Proof.
  unfold SFcompare.
  destruct a as [sa|sa| |sa ma ea], b as [sb|sb| |sb mb eb];
    try destruct sa; try destruct sb; try reflexivity;
    cbn [option_map]; rewrite ?Pos.compare_cont_spec; unfold Pos.switch_Eq;
    rewrite (Z.compare_antisym ea eb), (Pos.compare_antisym ma mb);
    destruct (Z.compare ea eb), (Pos.compare ma mb); reflexivity.
Qed.

Lemma SFcompare_some a b :
  a <> S754_nan -> b <> S754_nan -> exists c, SFcompare a b = Some c.
Proof.
  intros Ha Hb. unfold SFcompare.
  destruct a as [sa|sa| |sa ma ea], b as [sb|sb| |sb mb eb];
    try congruence; eauto.
Qed.

Lemma SFleb_ltb_trans a b c :
  SFleb a b = true -> SFltb b c = true -> SFltb a c = true.
Proof.
  unfold SFleb, SFltb, SFcompare.
  destruct a as [sa|sa| |sa ma ea], b as [sb|sb| |sb mb eb], c as [sc|sc| |sc mc ec];
    try destruct sa; try destruct sb; try destruct sc;
    try discriminate; try reflexivity;
    rewrite ?Pos.compare_cont_spec; unfold Pos.switch_Eq;
    destruct (Z.compare_spec ea eb), (Z.compare_spec eb ec), (Z.compare_spec ea ec);
    try discriminate; try reflexivity; try lia; subst;
    destruct (Pos.compare_spec ma mb), (Pos.compare_spec mb mc), (Pos.compare_spec ma mc);
    simpl; try discriminate; try reflexivity; try lia.
Qed.

(** [NaN] is the one number that is not equal to itself. *)
Lemma is_nan_spec x : PrimFloat.is_nan x = true <-> Prim2SF x = S754_nan.
Proof.
  unfold PrimFloat.is_nan. rewrite FloatAxioms.eqb_spec. unfold SFeqb, SFcompare.
  destruct (Prim2SF x) as [s|s| |s m e]; try destruct s; cbn;
    rewrite ?Z.compare_refl, ?Pos.compare_cont_spec, ?Pos.compare_refl; cbn;
    split; congruence.
Qed.

Lemma not_nan_spec x : PrimFloat.is_nan x = false <-> Prim2SF x <> S754_nan.
Proof.
  rewrite <- is_nan_spec. destruct (PrimFloat.is_nan x); split; congruence.
Qed.

Lemma ltb_leb a b : PrimFloat.ltb a b = true -> PrimFloat.leb a b = true.
Proof.
  rewrite FloatAxioms.ltb_spec, FloatAxioms.leb_spec. unfold SFltb, SFleb.
  destruct (SFcompare (Prim2SF a) (Prim2SF b)) as [[]|]; congruence.
Qed.

Lemma ltb_not_nan a b :
  PrimFloat.ltb a b = true -> PrimFloat.is_nan a = false /\ PrimFloat.is_nan b = false.
Proof.
  rewrite FloatAxioms.ltb_spec, !not_nan_spec. unfold SFltb, SFcompare.
  destruct (Prim2SF a), (Prim2SF b); try discriminate; split; congruence.
Qed.

Lemma leb_not_nan a b :
  PrimFloat.leb a b = true -> PrimFloat.is_nan a = false /\ PrimFloat.is_nan b = false.
Proof.
  rewrite FloatAxioms.leb_spec, !not_nan_spec. unfold SFleb, SFcompare.
  destruct (Prim2SF a), (Prim2SF b); try discriminate; split; congruence.
Qed.

(** Two numbers, neither of them [NaN], are ordered one way or the other. *)
Lemma not_ltb_leb a b :
  PrimFloat.is_nan a = false -> PrimFloat.is_nan b = false ->
  PrimFloat.ltb a b = false -> PrimFloat.leb b a = true.
Proof.
  rewrite !not_nan_spec, FloatAxioms.ltb_spec, FloatAxioms.leb_spec.
  intros Ha Hb. unfold SFltb, SFleb. rewrite (SFcompare_antisym (Prim2SF a) (Prim2SF b)).
  destruct (SFcompare_some _ _ Ha Hb) as (c & ->). destruct c; cbn; congruence.
Qed.

Lemma leb_ltb_trans a b c :
  PrimFloat.leb a b = true -> PrimFloat.ltb b c = true -> PrimFloat.ltb a c = true.
Proof.
  rewrite FloatAxioms.leb_spec, !FloatAxioms.ltb_spec. apply SFleb_ltb_trans.
Qed.

(** [|x| < b] for a positive finite [b] is [-b < x] and [x < b]. *)
Lemma SFabs_ltb x m e :
  SFltb (SFabs x) (S754_finite false m e)
  = SFltb (S754_finite true m e) x && SFltb x (S754_finite false m e).
Proof.
  unfold SFltb, SFabs, SFcompare.
  destruct x as [s|s| |s mx ex]; try destruct s; try reflexivity;
    rewrite ?Pos.compare_cont_spec; unfold Pos.switch_Eq;
    rewrite ?(Z.compare_antisym ex e), ?(Pos.compare_antisym mx m);
    destruct (Z.compare ex e), (Pos.compare mx m); reflexivity.
Qed.

(** A number above [0] is not a negative finite number. *)
Lemma SFpositive_neq x m e :
  SFltb (S754_zero false) x = true -> SFeqb x (S754_finite true m e) = false.
Proof.
  unfold SFltb, SFeqb, SFcompare.
  destruct x as [s|s| |s mx ex]; try destruct s; try discriminate; reflexivity.
Qed.

(** A number that [isFinite] accepts is a zero or a finite number, and its
    difference with itself is [0]. *)
Lemma isFinite_spec x :
  isFinite x = true ->
  (exists s, Prim2SF x = S754_zero s) \/ (exists s m e, Prim2SF x = S754_finite s m e).
Proof.
  unfold isFinite, PrimFloat.is_infinity.
  intros H. apply andb_prop in H. destruct H as [Hn Hi].
  apply negb_true_iff in Hn, Hi. apply not_nan_spec in Hn.
  rewrite FloatAxioms.eqb_spec, FloatAxioms.abs_spec in Hi.
  change (Prim2SF infinity) with (S754_infinity false) in Hi.
  destruct (Prim2SF x) as [s|s| |s m e]; eauto; try congruence.
  destruct s; discriminate.
Qed.

Lemma sub_self x : isFinite x = true -> (x - x)%float = 0%float.
Proof.
  intros H. apply Prim2SF_inj. rewrite FloatAxioms.sub_spec.
  change (Prim2SF 0) with (S754_zero false).
  destruct (isFinite_spec x H) as [(s & ->)|(s & m & e & ->)].
  - destruct s; reflexivity.
  - unfold SF64sub, SFsub. rewrite Z.sub_diag. reflexivity.
Qed.

End FloatOrder.
Import FloatOrder.

(** ** More about the estimate *)

Module EstimateSpec.

(** What the scan keeps true from lag [a] on: before a rising good lag is
    found [bestOffset] and [bestCorrelation] are untouched, and afterwards
    [bestOffset] is the lag just scanned, which was rising good. *)
Lemma scan_invariant buffer n : forall a st,
  (foundGoodCorrelation st = false ->
   bestOffset st = -1 /\ bestCorrelation st = 0%float
   /\ lastCorrelation st = previousCorrelation buffer a) ->
  (foundGoodCorrelation st = true ->
   (1 <= a)%nat /\ bestOffset st = Z.of_nat (a - 1)
   /\ bestCorrelation st = correlationAt buffer (a - 1)
   /\ lastCorrelation st = correlationAt buffer (a - 1)
   /\ risingGood buffer (a - 1) = true) ->
  match scan buffer (seq a n) st with
  | Refine o st' =>
      (a <= o < a + n)%nat /\ (1 <= o)%nat
      /\ bestOffset st' = Z.of_nat (o - 1)
      /\ risingGood buffer (o - 1) = true /\ risingGood buffer o = false
  | Exhausted st' =>
      (foundGoodCorrelation st' = false /\ bestOffset st' = -1
       /\ bestCorrelation st' = 0%float)
      \/ (foundGoodCorrelation st' = true /\ (1 <= a + n)%nat
          /\ bestOffset st' = Z.of_nat (a + n - 1)
          /\ bestCorrelation st' = correlationAt buffer (a + n - 1)
          /\ risingGood buffer (a + n - 1) = true)
  end.
Proof.
  induction n as [|n IH]; intros a [bo bc lc fg] Hf Ht; cbn [seq scan].
  - rewrite Nat.add_0_r. cbn in *. destruct fg.
    + right. destruct (Ht eq_refl) as (H1 & H2 & H3 & _ & H5). auto.
    + left. destruct (Hf eq_refl) as (H1 & H2 & _). auto.
  - cbn [bestOffset bestCorrelation lastCorrelation foundGoodCorrelation] in *.
    assert (Hlast : lc = previousCorrelation buffer a).
    { destruct fg.
      - destruct (Ht eq_refl) as (H1 & _ & _ & H4 & _).
        destruct a as [|a]; [lia|]. cbn [previousCorrelation].
        rewrite H4. f_equal. lia.
      - apply (Hf eq_refl). }
    subst lc. fold (risingGood buffer a).
    destruct (risingGood buffer a) eqn:Hg.
    + assert (Hup : gt (correlationAt buffer a) bc = true).
      { unfold risingGood in Hg. apply andb_prop in Hg. destruct Hg as [H9 Hl].
        destruct fg.
        - destruct (Ht eq_refl) as (H1 & _ & H3 & _).
          destruct a as [|a]; [lia|]. cbn [previousCorrelation] in Hl.
          rewrite H3. replace (S a - 1)%nat with a by lia. exact Hl.
        - destruct (Hf eq_refl) as (_ & -> & _).
          eapply gt_trans; [exact H9|]. reflexivity. }
      rewrite Hup. cbn [bestOffset bestCorrelation].
      specialize (IH (S a) (mkScan (Z.of_nat a) (correlationAt buffer a)
                                   (correlationAt buffer a) true)).
      replace (S a - 1)%nat with a in IH by lia.
      replace (S a + n)%nat with (a + S n)%nat in IH by lia.
      assert (IH' := IH ltac:(cbn; discriminate)
                        ltac:(cbn; intros _; repeat split; auto; lia)).
      destruct (scan buffer (seq (S a) n) _) as [o st'|st'].
      * destruct IH' as (H1 & H2). split; [lia | exact H2].
      * exact IH'.
    + destruct fg.
      * destruct (Ht eq_refl) as (H1 & H2 & _ & _ & H5).
        cbn [bestOffset]. repeat split; auto; lia.
      * destruct (Hf eq_refl) as (H1 & H2 & _).
        specialize (IH (S a) (mkScan bo bc (correlationAt buffer a) false)).
        replace (S a + n)%nat with (a + S n)%nat in IH by lia.
        assert (IH' := IH ltac:(cbn; intros _; repeat split; auto)
                          ltac:(cbn; discriminate)).
        destruct (scan buffer (seq (S a) n) _) as [o st'|st'].
        -- destruct IH' as (H3 & H4). split; [lia | exact H4].
        -- exact IH'.
Qed.

(** X4.  Every estimate has one of three forms, and which one does not
    depend on the sample rate: [-1]; or, for a lag [o] that is not rising
    good right after one that is,
    [sampleRate / ((o - 1) + (correlationShift(buffer, MAX_SAMPLES, o) - 8) / 32)];
    or [sampleRate / (MAX_SAMPLES - 1)] when the last lag is rising good. *)
Theorem estimate_forms buffer :
  (forall sampleRate, autoCorrelate buffer sampleRate = noPitch)
  \/ (exists o,
        (1 <= o < MAX_SAMPLES buffer)%nat
        /\ risingGood buffer (o - 1) = true /\ risingGood buffer o = false
        /\ forall sampleRate,
             autoCorrelate buffer sampleRate
             = (sampleRate
                / (num (Z.of_nat (o - 1))
                   + (num (correlationShift buffer (MAX_SAMPLES buffer) (Z.of_nat o)) - 8)
                     / 32))%float)
  \/ ((1 <= MAX_SAMPLES buffer)%nat
      /\ risingGood buffer (MAX_SAMPLES buffer - 1) = true
      /\ forall sampleRate,
           autoCorrelate buffer sampleRate
           = (sampleRate / num (Z.of_nat (MAX_SAMPLES buffer - 1)))%float).
Proof.
  unfold autoCorrelate, autoCorrelate_path.
  destruct (lt (rms buffer) 0.01); [left; reflexivity|].
  pose proof (scan_invariant buffer (MAX_SAMPLES buffer) 0 scan_init
                ltac:(cbn; auto) ltac:(cbn; discriminate)) as H.
  rewrite Nat.add_0_l in H.
  destruct (scan buffer (seq 0 (MAX_SAMPLES buffer)) scan_init) as [o st|st].
  - destruct H as (H1 & H2 & H3 & H4 & H5).
    right. left. exists o. repeat split; auto; try lia.
    intros sampleRate. rewrite H3. reflexivity.
  - destruct H as [(_ & _ & ->)|(_ & H1 & H2 & H3 & H4)].
    + left. reflexivity.
    + right. right. repeat split; auto.
      intros sampleRate. rewrite H3, H2.
      unfold risingGood in H4. apply andb_prop in H4. destruct H4 as [H9 _].
      assert (G : gt (correlationAt buffer (MAX_SAMPLES buffer - 1)) 0.01 = true)
        by (eapply gt_trans; [exact H9|reflexivity]).
      rewrite G. reflexivity.
Qed.

(** X5.  [correlationShift] returns one of [0 .. 15], never the [-1] it
    starts from, and the step it returns ran. *)
Theorem correlationShift_range buffer maxSamples offset :
  0 <= correlationShift buffer maxSamples offset <= 15
  /\ In (Z.to_nat (correlationShift buffer maxSamples offset))
        (shiftSteps buffer maxSamples offset).
Proof.
  destruct (correlationShift_spec buffer maxSamples offset)
    as (m & b & Hm & Hsteps & _ & _ & Hb & E & _).
  rewrite E, Hsteps, Nat2Z.id. split; [lia|]. apply in_seq. lia.
Qed.

(** A block of finite samples matches itself at lag 0. *)
Lemma absDiffSum_lag0 buffer n :
  Forall (fun x => isFinite x = true) buffer ->
  (n <= length buffer)%nat ->
  absDiffSum buffer n 0 = 0%float.
Proof.
  intros Hfin Hn. unfold absDiffSum.
  assert (H : forall m k, (k + m <= length buffer)%nat ->
            fold_left
              (fun acc k0 =>
                 (acc + PrimFloat.abs (ofRead (read buffer (Z.of_nat k0))
                                       - ofRead (read buffer (Z.of_nat k0 + 0))))%float)
              (seq k m) 0%float = 0%float).
  { induction m as [|m IH]; intros k Hk; [reflexivity|].
    cbn [seq fold_left]. rewrite Z.add_0_r, read_nat.
    destruct (nth_error buffer k) as [x|] eqn:E.
    - cbn [ofRead]. rewrite sub_self.
      + change (0 + PrimFloat.abs 0)%float with 0%float. apply IH. lia.
      + rewrite Forall_forall in Hfin. eapply Hfin, nth_error_In, E.
    - apply nth_error_None in E. lia. }
  apply H. lia.
Qed.

(** X6.  On a block of at least two finite samples the correlation at lag 0
    is exactly [1], lag 0 is never accepted, and so a scan that stops to
    refine stops at a lag of at least 2 with [bestOffset] at least 1. *)
Theorem finite_block_lag0 buffer :
  Forall (fun x => isFinite x = true) buffer ->
  (2 <= length buffer)%nat -> Z.of_nat (length buffer) < 2 ^ 53 ->
  correlationAt buffer 0 = 1%float
  /\ risingGood buffer 0 = false
  /\ forall o st,
       autoCorrelate_path buffer = Scanned (Refine o st) ->
       (2 <= o < MAX_SAMPLES buffer)%nat /\ bestOffset st = Z.of_nat (o - 1).
Proof.
  intros Hfin Hlen Hb.
  pose proof (Nat.div_mod_eq (length buffer) 2) as E.
  pose proof (Nat.mod_upper_bound (length buffer) 2 ltac:(lia)) as B.
  assert (Hc : correlationAt buffer 0 = 1%float).
  { unfold correlationAt. change (Z.of_nat 0) with 0.
    rewrite absDiffSum_lag0, zero_div_num; try assumption; try reflexivity;
      unfold MAX_SAMPLES, SIZE; lia. }
  assert (Hr : risingGood buffer 0 = false).
  { unfold risingGood. cbn [previousCorrelation]. rewrite Hc. reflexivity. }
  split; [exact Hc|]. split; [exact Hr|].
  intros o st H. unfold autoCorrelate_path in H.
  destruct (lt (rms buffer) 0.01); [discriminate|].
  pose proof (scan_invariant buffer (MAX_SAMPLES buffer) 0 scan_init
                ltac:(cbn; auto) ltac:(cbn; discriminate)) as Hs.
  injection H as H. rewrite H in Hs.
  destruct Hs as (H1 & H2 & H3 & H4 & H5).
  split; [|exact H3].
  destruct (Nat.eq_dec o 1) as [->|]; [|lia].
  cbn in H4. congruence.
Qed.

Lemma finite_block_lag0_witness :
  correlationAt Blocks.rising8 0 = 1%float /\ risingGood Blocks.rising8 0 = false.
Proof.
  destruct (finite_block_lag0 Blocks.rising8) as (H1 & H2 & _).
  - repeat constructor.
  - cbn. lia.
  - cbn. lia.
  - split; assumption.
Defined.

(** X7.  A block too short to have a lag (fewer than two samples, the
    empty block among them) gives [-1]. *)
Theorem short_block_no_pitch buffer sampleRate :
  (length buffer <= 1)%nat -> autoCorrelate buffer sampleRate = noPitch.
Proof.
  intros H. unfold autoCorrelate, autoCorrelate_path.
  destruct (lt (rms buffer) 0.01); [reflexivity|].
  replace (MAX_SAMPLES buffer) with 0%nat.
  - reflexivity.
  - unfold MAX_SAMPLES, SIZE. destruct buffer as [|x [|y l]]; cbn in *; try reflexivity; lia.
Qed.

Lemma short_block_no_pitch_witness :
  autoCorrelate [0.5%float] 44100 = noPitch /\ autoCorrelate [] 44100 = noPitch.
Proof.
  split; apply short_block_no_pitch; cbn; lia.
Defined.

(** The first step of the search: when its [cc] is above its [cc_prev] the
    loop breaks there and the result is [0]. *)
Lemma first_step_break buffer maxSamples offset :
  gt (absDiffSum buffer maxSamples offset) (absDiffSum buffer maxSamples (offset - 1)) = true ->
  correlationShift buffer maxSamples offset = 0
  /\ shiftSteps buffer maxSamples offset = [0%nat].
Proof.
  intros H. unfold correlationShift, shiftSteps.
  change (seq 0 16) with (0%nat :: seq 1 15). cbn [shift_loop].
  unfold shift_step, cc, cc_prev. cbn [Z.of_nat]. rewrite Z.add_0_r, H.
  split; reflexivity.
Qed.

(** X21.  When the scan stops to refine at a lag whose summed absolute
    difference is above that of the lag before, the sub-lag search ends at
    its first step with [0], and the estimate is
    [sampleRate / (bestOffset - 0.25)] with [bestOffset] the lag before the
    stop. *)
Theorem refinement_first_step buffer sampleRate o st :
  autoCorrelate_path buffer = Scanned (Refine o st) ->
  gt (absDiffSum buffer (MAX_SAMPLES buffer) (Z.of_nat o))
     (absDiffSum buffer (MAX_SAMPLES buffer) (Z.of_nat o - 1)) = true ->
  correlationShift buffer (MAX_SAMPLES buffer) (Z.of_nat o) = 0
  /\ autoCorrelate buffer sampleRate
     = (sampleRate / (num (Z.of_nat (o - 1)) + (-0.25)))%float.
Proof.
  intros Hp Hs.
  destruct (first_step_break buffer (MAX_SAMPLES buffer) (Z.of_nat o) Hs) as [E _].
  split; [exact E|].
  unfold autoCorrelate. rewrite Hp, E.
  unfold autoCorrelate_path in Hp.
  destruct (lt (rms buffer) 0.01); [discriminate|].
  pose proof (scan_invariant buffer (MAX_SAMPLES buffer) 0 scan_init
                ltac:(cbn; auto) ltac:(cbn; discriminate)) as Hi.
  injection Hp as Hp. rewrite Hp in Hi. destruct Hi as (_ & _ & -> & _).
  reflexivity.
Qed.

Lemma refinement_first_step_witness :
  correlationShift Blocks.stop8 4 3 = 0
  /\ autoCorrelate Blocks.stop8 44100 = 25200%float.
Proof.
  destruct (refinement_first_step Blocks.stop8 44100 3
              (mkScan 2 (correlationAt Blocks.stop8 2) (correlationAt Blocks.stop8 2) true))
    as (H1 & H2).
  - vm_compute. reflexivity.
  - vm_compute. reflexivity.
  - split; [exact H1|]. rewrite H2. vm_compute. reflexivity.
Defined.

End EstimateSpec.

(** ** The needle and the flat/sharp text *)

Module DisplaySpec.

Lemma Math_min_45 y :
  PrimFloat.is_nan y = false -> Math_min 45 y = if lt 45 y then 45%float else y.
Proof.
  intros H. unfold Math_min. rewrite H. cbn [orb].
  change (PrimFloat.is_nan 45) with false. cbn [orb].
  destruct (lt 45 y); [reflexivity|]. destruct (lt y 45); reflexivity.
Qed.

Lemma Math_max_m45 y :
  PrimFloat.is_nan y = false ->
  Math_max (-45) y = if lt y (-45) then (-45)%float else y.
Proof.
  intros H. unfold Math_max, gt. rewrite H.
  change (PrimFloat.is_nan (-45)) with false. cbn [orb].
  fold (lt y (-45)). destruct (lt y (-45)); [reflexivity|].
  destruct (PrimFloat.ltb (-45) y); reflexivity.
Qed.

(** X8.  [setNeedle] clamps half the cents to [-45 .. 45]: the angle is
    [cents / 2] when that is within the range, [45] above it, [-45] below
    it, and [NaN] when [cents / 2] is. *)
Theorem setNeedle_clamp cents :
  (PrimFloat.leb (-45) (cents / 2) = true -> PrimFloat.leb (cents / 2) 45 = true ->
   setNeedle cents = (cents / 2)%float)
  /\ (lt 45 (cents / 2) = true -> setNeedle cents = 45%float)
  /\ (lt (cents / 2) (-45) = true -> setNeedle cents = (-45)%float)
  /\ (PrimFloat.is_nan (cents / 2) = true -> PrimFloat.is_nan (setNeedle cents) = true).
Proof.
  unfold setNeedle. set (y := (cents / 2)%float).
  split; [|split; [|split]].
  - intros H1 H2. destruct (leb_not_nan _ _ H2) as [Hy _].
    rewrite (Math_min_45 y Hy). unfold lt. rewrite (leb_not_ltb _ _ H2).
    rewrite (Math_max_m45 y Hy). unfold lt. rewrite (leb_not_ltb _ _ H1). reflexivity.
  - intros H. destruct (ltb_not_nan _ _ H) as [_ Hy].
    rewrite (Math_min_45 y Hy), H. reflexivity.
  - intros H. destruct (ltb_not_nan _ _ H) as [Hy _].
    rewrite (Math_min_45 y Hy).
    destruct (lt 45 y) eqn:E.
    + pose proof (ltb_trans _ _ _ E H) as T. discriminate T.
    + rewrite (Math_max_m45 y Hy), H. reflexivity.
  - intros H. unfold Math_min. rewrite H, orb_true_r. reflexivity.
Qed.

Lemma setNeedle_clamp_witness :
  setNeedle 13 = 6.5%float /\ setNeedle 100 = 45%float
  /\ setNeedle (-200) = (-45)%float.
Proof.
  split; [|split].
  - apply (proj1 (setNeedle_clamp 13)); reflexivity.
  - apply (proj1 (proj2 (setNeedle_clamp 100))); reflexivity.
  - apply (proj1 (proj2 (proj2 (setNeedle_clamp (-200))))); reflexivity.
Defined.

Lemma setNeedle_range cents :
  PrimFloat.is_nan (setNeedle cents) = true
  \/ (PrimFloat.leb (-45) (setNeedle cents) = true
      /\ PrimFloat.leb (setNeedle cents) 45 = true).
Proof.
  unfold setNeedle. set (y := (cents / 2)%float).
  destruct (PrimFloat.is_nan y) eqn:Hy.
  - left. unfold Math_min. rewrite Hy, orb_true_r. reflexivity.
  - right. rewrite (Math_min_45 y Hy).
    destruct (lt 45 y) eqn:E1; [split; reflexivity|].
    rewrite (Math_max_m45 y Hy).
    destruct (lt y (-45)) eqn:E2; [split; reflexivity|].
    split.
    + apply not_ltb_leb; [exact Hy | reflexivity | exact E2].
    + apply not_ltb_leb; [reflexivity | exact Hy | exact E1].
Qed.

(** X9.  After any frame, and after [stopListening], the needle's angle is
    within [-45 .. 45] or [NaN] (it is [NaN] only if [smoothedCents] is). *)
Theorem needle_within_range {M : MathObject} ac t a :
  (PrimFloat.is_nan (needle (frame ac t)) = true
   \/ (PrimFloat.leb (-45) (needle (frame ac t)) = true
       /\ PrimFloat.leb (needle (frame ac t)) 45 = true))
  /\ needle (page (stopListening a)) = 0%float.
Proof.
  split; [|reflexivity].
  unfold frame. destruct (validPitch ac).
  - destruct (findMostFrequent _) as [v nb]. cbn [needle]. apply setNeedle_range.
  - cbn [needle]. apply setNeedle_range.
Qed.

(** X10.  What each flat/sharp text means: "In tune" is shown only for
    [-5 < cents < 5], "Flat" only for [cents <= -5], and "Sharp" only for
    [cents >= 5] or a [NaN]; the call never leaves the text empty. *)
Theorem indicator_meaning cents :
  match updateFlatSharpIndicator cents with
  | InTune => lt (-5) cents = true /\ lt cents 5 = true
  | Flat => PrimFloat.leb cents (-5) = true
  | Sharp => PrimFloat.is_nan cents = true \/ PrimFloat.leb 5 cents = true
  | Blank => False
  end.
Proof.
  unfold updateFlatSharpIndicator.
  assert (A : lt (PrimFloat.abs cents) 5 = lt (-5) cents && lt cents 5).
  { unfold lt. rewrite !FloatAxioms.ltb_spec, FloatAxioms.abs_spec.
    change (Prim2SF 5) with (S754_finite false 5629499534213120 (-50)).
    change (Prim2SF (-5)) with (S754_finite true 5629499534213120 (-50)).
    apply SFabs_ltb. }
  rewrite A. unfold lt.
  destruct (PrimFloat.ltb (-5) cents) eqn:E1, (PrimFloat.ltb cents 5) eqn:E2; cbn [andb].
  - split; reflexivity.
  - (* -5 < cents, not cents < 5 *)
    destruct (ltb_not_nan _ _ E1) as [_ Hc].
    destruct (PrimFloat.ltb cents 0) eqn:E3.
    + pose proof (ltb_trans cents 0 5 E3 eq_refl) as T. congruence.
    + right. apply not_ltb_leb; [exact Hc | reflexivity | exact E2].
  - destruct (ltb_not_nan _ _ E2) as [Hc _].
    assert (L : PrimFloat.leb cents (-5) = true)
      by (apply not_ltb_leb; [reflexivity | exact Hc | exact E1]).
    rewrite (leb_ltb_trans cents (-5) 0 L eq_refl). exact L.
  - destruct (PrimFloat.is_nan cents) eqn:Hc.
    + destruct (PrimFloat.ltb cents 0) eqn:E3; [|left; reflexivity].
      destruct (ltb_not_nan _ _ E3) as [Hc' _]. congruence.
    + assert (L : PrimFloat.leb cents (-5) = true)
        by (apply not_ltb_leb; [reflexivity | exact Hc | exact E1]).
      rewrite (leb_ltb_trans cents (-5) 0 L eq_refl). exact L.
Qed.

(** X11.  The test [ac !== -1] never decides: an estimate is a valid pitch
    exactly when it is finite and above [0]. *)
Theorem validPitch_finite_positive ac :
  validPitch ac = isFinite ac && gt ac 0.
Proof.
  unfold validPitch. destruct (gt ac 0) eqn:G; [|rewrite !andb_false_r; reflexivity].
  rewrite !andb_true_r.
  assert (E : PrimFloat.eqb ac (-1) = false).
  { unfold gt in G. rewrite FloatAxioms.ltb_spec in G. rewrite FloatAxioms.eqb_spec.
    change (Prim2SF 0) with (S754_zero false) in G.
    change (Prim2SF (-1)) with (S754_finite true 4503599627370496 (-52)).
    apply SFpositive_neq. exact G. }
  rewrite E. reflexivity.
Qed.

End DisplaySpec.

(** ** More about [findMostFrequent] *)

Module MostFrequentSpec.

Lemma strictEq_eq v a : strictEq v a = true <-> v = a.
Proof.
  destruct v as [x|], a as [y|]; cbn; try (split; congruence).
  rewrite String.eqb_eq. split; congruence.
Qed.

Lemma occurrences_In arr v : (0 < occurrences arr v)%nat -> In v arr.
Proof.
  unfold occurrences. intros H.
  destruct (filter (fun w => strictEq w v) arr) as [|w l] eqn:E; [cbn in H; lia|].
  assert (Hw : In w (filter (fun w => strictEq w v) arr)) by (rewrite E; left; reflexivity).
  apply filter_In in Hw. destruct Hw as [Hw Hs].
  apply strictEq_eq in Hs. subst w. exact Hw.
Qed.

Lemma definedOf_In arr s : In s (definedOf arr) <-> In (Some s) arr.
Proof.
  unfold definedOf. rewrite in_flat_map. split.
  - intros ([x|] & Hx & Hs); cbn in Hs; [|contradiction].
    destruct Hs as [->|[]]. exact Hx.
  - intros H. exists (Some s). split; [exact H | left; reflexivity].
Qed.

Lemma insertSorted_perm cmp x l : Permutation (x :: l) (insertSorted cmp x l).
Proof.
  induction l as [|y l IH]; cbn; [reflexivity|].
  destruct (0 <? cmp y x); [reflexivity|].
  rewrite perm_swap. apply perm_skip, IH.
Qed.

Lemma stableSort_perm cmp l : Permutation l (stableSort cmp l).
Proof.
  unfold stableSort.
  assert (H : forall acc,
            Permutation (acc ++ l)
                        (fold_left (fun sorted x => insertSorted cmp x sorted) l acc)).
  { induction l as [|x l IH]; intros acc; cbn; [rewrite app_nil_r; reflexivity|].
    rewrite <- IH. rewrite <- insertSorted_perm.
    symmetry. apply Permutation_cons_app. reflexivity. }
  apply (H []).
Qed.

(** The sort puts the names in the order of their numbers of occurrences. *)
Lemma insertSorted_sorted arr x l :
  StronglySorted (fun a b => (occurrences arr (Some a) <= occurrences arr (Some b))%nat) l ->
  StronglySorted (fun a b => (occurrences arr (Some a) <= occurrences arr (Some b))%nat)
                 (insertSorted (byOccurrences arr) x l).
Proof.
  induction 1 as [|y l Hs IH Hy]; cbn.
  - repeat constructor.
  - unfold byOccurrences at 1. destruct (Z.ltb_spec 0
      (Z.of_nat (occurrences arr (Some y)) - Z.of_nat (occurrences arr (Some x)))).
    + constructor; [constructor; assumption|].
      constructor; [lia|]. eapply Forall_impl; [|exact Hy]. cbn. intros b Hb. lia.
    + constructor; [exact IH|].
      eapply Permutation_Forall; [apply insertSorted_perm|].
      constructor; [lia | exact Hy].
Qed.

Lemma stableSort_sorted arr l :
  StronglySorted (fun a b => (occurrences arr (Some a) <= occurrences arr (Some b))%nat)
                 (stableSort (byOccurrences arr) l).
Proof.
  unfold stableSort.
  assert (H : forall acc,
            StronglySorted
              (fun a b => (occurrences arr (Some a) <= occurrences arr (Some b))%nat) acc ->
            StronglySorted
              (fun a b => (occurrences arr (Some a) <= occurrences arr (Some b))%nat)
              (fold_left (fun sorted x => insertSorted (byOccurrences arr) x sorted) l acc)).
  { induction l as [|x l IH]; intros acc Hacc; cbn; [exact Hacc|].
    apply IH, insertSorted_sorted, Hacc. }
  apply H. constructor.
Qed.

Lemma sorted_last_max arr l d :
  StronglySorted (fun a b => (occurrences arr (Some a) <= occurrences arr (Some b))%nat) l ->
  forall x, In x l ->
  (occurrences arr (Some x) <= occurrences arr (Some (last l d)))%nat.
Proof.
  induction 1 as [|y l Hs IH Hy]; intros x Hx; [contradiction|].
  destruct l as [|z l].
  - destruct Hx as [->|[]]. cbn. lia.
  - change (last (y :: z :: l) d) with (last (z :: l) d).
    destruct Hx as [->|Hx]; [|apply IH, Hx].
    rewrite Forall_forall in Hy. apply Hy.
    destruct (exists_last (l := z :: l) ltac:(discriminate)) as (l' & a & E).
    rewrite E, last_last. apply in_or_app. right. left. reflexivity.
Qed.

Lemma last_map_Some (l : list string) d :
  l <> [] -> last (map Some l) undefined = Some (last l d).
Proof.
  intros H. destruct (exists_last H) as (l' & a & ->).
  rewrite map_app. cbn [map]. rewrite !last_last. reflexivity.
Qed.

Lemma all_defined arr :
  (forall v, In v arr -> v <> undefined) ->
  arr = map Some (definedOf arr) /\ length (definedOf arr) = length arr.
Proof.
  unfold definedOf.
  induction arr as [|[s|] arr IH]; intros H; cbn.
  - split; reflexivity.
  - destruct IH as [E1 E2]; [intros v Hv; apply H; right; exact Hv|].
    split; [f_equal; exact E1 | f_equal; exact E2].
  - exfalso. apply (H None); [left|]; reflexivity.
Qed.

(** X12.  On an array of note names that is not empty [findMostFrequent]
    returns a name of the array that no value occurs in the array more
    often than. *)
Theorem findMostFrequent_most_frequent arr :
  arr <> [] -> (forall v, In v arr -> v <> undefined) ->
  exists s,
    fst (findMostFrequent arr) = Some s /\ In (Some s) arr
    /\ forall v, (occurrences arr v <= occurrences arr (Some s))%nat.
Proof.
  intros Hne Hdef. destruct (all_defined arr Hdef) as [E1 E2].
  set (sorted := stableSort (byOccurrences arr) (definedOf arr)).
  assert (Hs : sorted <> []).
  { intros E. apply (f_equal (@length _)) in E. unfold sorted in E.
    rewrite stableSort_length, E2 in E. destruct arr; [congruence|discriminate]. }
  exists (last sorted ""%string).
  assert (Hin : In (last sorted ""%string) sorted).
  { destruct (exists_last Hs) as (l' & a & ->). rewrite last_last.
    apply in_or_app. right. left. reflexivity. }
  split; [|split].
  - unfold findMostFrequent, Array_pop, Array_sort. cbn [fst].
    rewrite E2, Nat.sub_diag. cbn [repeat]. rewrite app_nil_r.
    apply last_map_Some, Hs.
  - apply definedOf_In. eapply Permutation_in; [|exact Hin].
    symmetry. apply stableSort_perm.
  - intros v. destruct (occurrences arr v) as [|n] eqn:Ev; [lia|].
    assert (Hv : In v arr) by (apply occurrences_In; lia).
    destruct v as [s|]; [|exfalso; apply (Hdef None Hv); reflexivity].
    rewrite <- Ev. apply sorted_last_max; [apply stableSort_sorted|].
    eapply Permutation_in; [apply stableSort_perm|]. apply definedOf_In, Hv.
Qed.

Lemma findMostFrequent_most_frequent_witness :
  exists s,
    fst (findMostFrequent [Some "A"; Some "B"; Some "A"; Some "C"; Some "B"; Some "A"]%string)
    = Some s
    /\ forall v,
         (occurrences [Some "A"; Some "B"; Some "A"; Some "C"; Some "B"; Some "A"]%string v
          <= occurrences [Some "A"; Some "B"; Some "A"; Some "C"; Some "B"; Some "A"]%string
               (Some s))%nat.
Proof.
  destruct (findMostFrequent_most_frequent
              [Some "A"; Some "B"; Some "A"; Some "C"; Some "B"; Some "A"]%string)
    as (s & H1 & _ & H3).
  - discriminate.
  - intros v Hv. cbn in Hv. intuition (subst; discriminate).
  - exists s. split; assumption.
Defined.

Lemma defined_then_undefined arr : forall k,
  k = (length arr - length (definedOf arr))%nat ->
  Permutation arr (map Some (definedOf arr) ++ repeat undefined k).
Proof.
  induction arr as [|[s|] arr IH]; intros k Hk.
  - cbn in *. subst k. constructor.
  - change (definedOf (Some s :: arr)) with (s :: definedOf arr) in *.
    cbn [map app length] in *. apply perm_skip, IH. lia.
  - change (definedOf (None :: arr)) with (definedOf arr) in *.
    cbn [length] in Hk. pose proof (definedOf_length arr) as L.
    destruct k as [|k]; [lia|]. cbn [repeat].
    apply Permutation_cons_app, IH. lia.
Qed.

Lemma Array_sort_perm cmp arr : Permutation arr (Array_sort cmp arr).
Proof.
  unfold Array_sort.
  rewrite <- (Permutation_map Some (stableSort_perm cmp (definedOf arr))).
  apply defined_then_undefined. reflexivity.
Qed.

(** X13.  The call takes exactly the returned element out of the array: an
    array that is not empty is a rearrangement of what is left of it
    followed by the value returned. *)
Theorem findMostFrequent_takes_one arr :
  arr <> [] ->
  Permutation arr (snd (findMostFrequent arr) ++ [fst (findMostFrequent arr)]).
Proof.
  intros Hne. unfold findMostFrequent, Array_pop. cbn [fst snd].
  rewrite <- app_removelast_last.
  - apply Array_sort_perm.
  - intros E. apply (f_equal (@length _)) in E.
    rewrite Array_sort_length in E. destruct arr; [congruence|discriminate].
Qed.

Lemma findMostFrequent_takes_one_witness :
  Permutation [Some "A"; undefined; Some "B"]%string
              (snd (findMostFrequent [Some "A"; undefined; Some "B"]%string)
               ++ [fst (findMostFrequent [Some "A"; undefined; Some "B"]%string)]).
Proof.
  apply (findMostFrequent_takes_one [Some "A"; undefined; Some "B"]%string).
  discriminate.
Defined.

Lemma definedOf_shorter arr :
  In undefined arr -> (length (definedOf arr) < length arr)%nat.
Proof.
  unfold definedOf. induction arr as [|[s|] arr IH]; intros H; cbn.
  - contradiction.
  - destruct H as [H|H]; [discriminate|]. specialize (IH H). lia.
  - pose proof (definedOf_length arr) as L. unfold definedOf in L. lia.
Qed.

(** X14.  An [undefined] in the array wins whatever the names' counts are:
    the call returns [undefined] then, as it does for the empty array. *)
Theorem findMostFrequent_undefined arr :
  arr = [] \/ In undefined arr -> fst (findMostFrequent arr) = undefined.
Proof.
  intros [->|H]; [reflexivity|].
  unfold findMostFrequent, Array_pop, Array_sort. cbn [fst].
  pose proof (definedOf_shorter arr H) as L.
  destruct (length arr - length (definedOf arr))%nat as [|k] eqn:E; [lia|].
  change (repeat undefined (S k)) with (undefined :: repeat undefined k).
  rewrite repeat_cons, app_assoc, last_last. reflexivity.
Qed.

Lemma findMostFrequent_undefined_witness :
  fst (findMostFrequent [Some "A"; undefined; Some "A"]%string) = undefined.
Proof.
  apply (findMostFrequent_undefined [Some "A"; undefined; Some "A"]%string).
  right. right. left. reflexivity.
Defined.

End MostFrequentSpec.

(** ** More about the frames *)

Module FramesSpec.

Lemma pushShift_window {A} size (arr : list A) x :
  (length arr <= size)%nat ->
  pushShift size arr x = skipn (length (arr ++ [x]) - size) (arr ++ [x]).
Proof.
  intros H. unfold pushShift. rewrite length_app. cbn [length].
  destruct (Nat.ltb_spec size (length arr + 1)) as [Hlt|Hge].
  - replace (length arr + 1 - size)%nat with 1%nat by lia.
    destruct (arr ++ [x]); reflexivity.
  - replace (length arr + 1 - size)%nat with 0%nat by lia. reflexivity.
Qed.

(** A note name that [noteStrings] gives is one of the twelve and counts as
    true. *)
Lemma noteNameOf_In note s : noteNameOf note = Some s -> In s noteStrings.
Proof.
  unfold noteNameOf. destruct (toInteger note) as [z|]; [|discriminate].
  cbn zeta. destruct (Z.rem z 12 <? 0); [discriminate|].
  apply nth_error_In.
Qed.

Lemma noteNameOf_truthy note s : noteNameOf note = Some s -> truthy (Some s) = true.
Proof.
  intros H. apply noteNameOf_In in H. cbn in H.
  repeat (destruct H as [<-|H]; [reflexivity|]). contradiction.
Qed.

(** X19.  The name of a note: one of the twelve names whenever there is
    one; for a note that is a non-negative integer [z], the name at index
    [z mod 12]; none for a negative integer that is not a multiple
    of 12. *)
Theorem noteNameOf_cases note :
  (forall s, noteNameOf note = Some s -> In s noteStrings)
  /\ (forall z, toInteger note = Some z -> 0 <= z ->
                noteNameOf note = nth_error noteStrings (Z.to_nat (z mod 12))
                /\ noteNameOf note <> undefined)
  /\ (forall z, toInteger note = Some z -> z < 0 -> Z.rem z 12 <> 0 ->
                noteNameOf note = undefined).
Proof.
  split; [intros s; apply noteNameOf_In|]. split.
  - intros z Hz Hpos. unfold noteNameOf. rewrite Hz. cbn zeta.
    rewrite Z.rem_mod_nonneg by lia.
    pose proof (Z.mod_pos_bound z 12 ltac:(lia)) as B.
    destruct (Z.ltb_spec (z mod 12) 0); [lia|].
    split; [reflexivity|].
    apply nth_error_Some. cbn [noteStrings length]. lia.
  - intros z Hz Hneg Hrem. unfold noteNameOf. rewrite Hz. cbn zeta.
    pose proof (Z.rem_nonpos z 12 ltac:(lia) ltac:(lia)) as B.
    destruct (Z.ltb_spec (Z.rem z 12) 0); [reflexivity|lia].
Qed.

Lemma noteNameOf_cases_witness :
  noteNameOf 69 = Some "A"%string /\ noteNameOf (-3) = undefined.
Proof.
  split.
  - rewrite (proj1 (proj1 (proj2 (noteNameOf_cases 69)) 69 eq_refl ltac:(lia))).
    reflexivity.
  - apply (proj2 (proj2 (noteNameOf_cases (-3))) (-3)); [reflexivity|lia|].
    vm_compute. discriminate.
Defined.

Section WithMath.
Context {M : MathObject}.

Lemma frames_cons ac acs t : frames (ac :: acs) t = frames acs (frame ac t).
Proof. reflexivity. Qed.

(** X15.  [frequencyBuffer] is a first-in first-out window: after frames
    with valid estimates only, from a state whose buffer is within its
    size, it holds the last 10 of the estimates it held followed by the new
    ones, in order. *)
Theorem frequencyBuffer_window acs : forall t,
  forallb validPitch acs = true ->
  (length (frequencyBuffer t) <= 10)%nat ->
  frequencyBuffer (frames acs t)
  = skipn (length (frequencyBuffer t ++ acs) - 10) (frequencyBuffer t ++ acs).
Proof.
  induction acs as [|ac acs IH]; intros t Hv Hlen.
  - cbn [frames fold_left]. rewrite app_nil_r.
    replace (length (frequencyBuffer t) - 10)%nat with 0%nat by lia. reflexivity.
  - cbn [forallb] in Hv. apply andb_prop in Hv. destruct Hv as [Hac Hv].
    destruct (TunerSpec.frame_valid ac t Hac) as (Ef & _).
    pose proof (pushShift_length frequencyBufferSize (frequencyBuffer t) ac Hlen) as Hlen'.
    rewrite <- Ef in Hlen'.
    rewrite frames_cons, (IH (frame ac t) Hv Hlen'), Ef.
    rewrite (pushShift_window frequencyBufferSize (frequencyBuffer t) ac Hlen).
    unfold frequencyBufferSize.
    set (d := (length (frequencyBuffer t ++ [ac]) - 10)%nat).
    assert (Hd : (d <= length (frequencyBuffer t ++ [ac]))%nat) by (unfold d; lia).
    replace (skipn d (frequencyBuffer t ++ [ac]) ++ acs)
      with (skipn d ((frequencyBuffer t ++ [ac]) ++ acs)).
    2: { rewrite skipn_app. replace (d - length (frequencyBuffer t ++ [ac]))%nat
           with 0%nat by lia. reflexivity. }
    rewrite length_skipn, skipn_skipn, <- app_assoc. cbn [app].
    f_equal. unfold d. rewrite !length_app. cbn [length]. lia.
Qed.

Lemma forallb_pushShift size arr x :
  forallb validPitch arr = true -> validPitch x = true ->
  forallb validPitch (pushShift size arr x) = true.
Proof.
  intros Ha Hx. unfold pushShift.
  assert (H : forallb validPitch (arr ++ [x]) = true)
    by (rewrite forallb_app, Ha; cbn; rewrite Hx; reflexivity).
  destruct (size <? length (arr ++ [x]))%nat; [|exact H].
  destruct (arr ++ [x]) as [|y l]; [reflexivity|].
  cbn in H. apply andb_prop in H. apply H.
Qed.

(** X16.  After any frames from the empty state every element of
    [frequencyBuffer] is a valid pitch: finite, above [0] and not the [-1]
    of "no pitch". *)
Theorem frequencyBuffer_all_valid acs :
  forallb validPitch (frequencyBuffer (frames acs initial)) = true.
Proof.
  assert (H : forall t, forallb validPitch (frequencyBuffer t) = true ->
                        forallb validPitch (frequencyBuffer (frames acs t)) = true).
  { induction acs as [|ac acs IH]; intros t Ht; [exact Ht|].
    rewrite frames_cons. apply IH.
    destruct (validPitch ac) eqn:V.
    - destruct (TunerSpec.frame_valid ac t V) as (Ef & _). rewrite Ef.
      apply forallb_pushShift; assumption.
    - rewrite (TunerSpec.frame_invalid ac t V). reflexivity. }
  apply H. reflexivity.
Qed.

Lemma frames_noteBuffer_empty acs : forall t,
  noteBuffer t = [] -> noteBuffer (frames acs t) = [].
Proof.
  induction acs as [|ac acs IH]; intros t Ht; [exact Ht|].
  rewrite frames_cons. apply IH, TunerSpec.frame_noteBuffer_empty, Ht.
Qed.

(** X17.  After a valid frame, reached by any frames from the empty state,
    the note on show is the name of the note of that frame's smoothed
    frequency; earlier frames have no say.  Only when that note has no name
    does the page keep what it showed. *)
Theorem current_note_shown acs ac :
  validPitch ac = true ->
  noteDisplay (frame ac (frames acs initial))
  = match noteNameOf
            (noteFromPitch
               (mean (pushShift frequencyBufferSize
                        (frequencyBuffer (frames acs initial)) ac)))
    with
    | Some s => s
    | None => noteDisplay (frames acs initial)
    end.
Proof.
  intros V. set (t := frames acs initial).
  assert (Hn : noteBuffer t = []) by (apply frames_noteBuffer_empty; reflexivity).
  unfold frame. rewrite V, Hn.
  change (pushShift noteBufferSize [] ?x) with [x].
  rewrite findMostFrequent_one. cbn [noteDisplay].
  destruct (noteNameOf _) as [s|] eqn:E; [|reflexivity].
  rewrite (noteNameOf_truthy _ _ E). reflexivity.
Qed.

(** Frames do not look at [smoothedCents], the flat/sharp text or the
    needle to compute the buffers, the note and the frequency on show. *)
Lemma frame_agree ac t1 t2 :
  frequencyBuffer t1 = frequencyBuffer t2 -> noteBuffer t1 = noteBuffer t2 ->
  noteDisplay t1 = noteDisplay t2 -> frequencyDisplay t1 = frequencyDisplay t2 ->
  frequencyBuffer (frame ac t1) = frequencyBuffer (frame ac t2)
  /\ noteBuffer (frame ac t1) = noteBuffer (frame ac t2)
  /\ noteDisplay (frame ac t1) = noteDisplay (frame ac t2)
  /\ frequencyDisplay (frame ac t1) = frequencyDisplay (frame ac t2).
Proof.
  intros E1 E2 E3 E4. unfold frame. rewrite E1, E2, E3.
  destruct (validPitch ac); [|repeat split].
  destruct (findMostFrequent _) as [v nb]. repeat split.
Qed.

(** X18.  Stopping forgets the buffers and the page but not
    [smoothedCents]: the frames of a session started after [stopListening]
    give the buffers, the note and the frequency that the same frames give
    from the empty state, while [smoothedCents] starts from the value the
    stopped session left. *)
Theorem restart_after_stop a acs :
  frequencyBuffer (frames acs (page (stopListening a))) = frequencyBuffer (frames acs initial)
  /\ noteBuffer (frames acs (page (stopListening a))) = noteBuffer (frames acs initial)
  /\ noteDisplay (frames acs (page (stopListening a))) = noteDisplay (frames acs initial)
  /\ frequencyDisplay (frames acs (page (stopListening a)))
     = frequencyDisplay (frames acs initial)
  /\ smoothedCents (page (stopListening a)) = smoothedCents (page a)
  /\ isListening (stopListening a) = false.
Proof.
  assert (H : forall t1 t2,
            frequencyBuffer t1 = frequencyBuffer t2 -> noteBuffer t1 = noteBuffer t2 ->
            noteDisplay t1 = noteDisplay t2 -> frequencyDisplay t1 = frequencyDisplay t2 ->
            frequencyBuffer (frames acs t1) = frequencyBuffer (frames acs t2)
            /\ noteBuffer (frames acs t1) = noteBuffer (frames acs t2)
            /\ noteDisplay (frames acs t1) = noteDisplay (frames acs t2)
            /\ frequencyDisplay (frames acs t1) = frequencyDisplay (frames acs t2)).
  { induction acs as [|ac acs IH]; intros t1 t2 E1 E2 E3 E4; [repeat split; assumption|].
    rewrite !frames_cons.
    destruct (frame_agree ac t1 t2 E1 E2 E3 E4) as (F1 & F2 & F3 & F4).
    apply IH; assumption. }
  destruct (H (page (stopListening a)) initial) as (H1 & H2 & H3 & H4);
    try reflexivity.
  repeat split; assumption.
Qed.

(** X20.  A frame on a block whose RMS is below 0.01, a block of zeros for
    one, empties both buffers and puts the page in its no-signal state,
    leaving [smoothedCents] alone. *)
Theorem weak_block_resets buffer sampleRate t :
  lt (rms buffer) 0.01 = true
  \/ (exists n, (0 < n)%nat /\ Z.of_nat n < 2 ^ 53 /\ buffer = repeat 0%float n) ->
  updatePitch buffer sampleRate t
  = mkTuner [] (smoothedCents t) [] "-"%string NoHz Blank 0%float.
Proof.
  intros H.
  assert (Hrms : lt (rms buffer) 0.01 = true).
  { destruct H as [H|(n & Hn & Hb & ->)]; [exact H|].
    rewrite AutocorrelatorSpec.rms_zeros by assumption. reflexivity. }
  unfold updatePitch, autoCorrelate, autoCorrelate_path. rewrite Hrms.
  apply TunerSpec.frame_invalid. reflexivity.
Qed.

End WithMath.

Existing Instance SampleMath.math.

Lemma frequencyBuffer_window_witness :
  frequencyBuffer
    (frames [100; 101; 102; 103; 104; 105; 106; 107; 108; 109; 110; 111]%float initial)
  = [102; 103; 104; 105; 106; 107; 108; 109; 110; 111]%float.
Proof.
  rewrite (frequencyBuffer_window
             [100; 101; 102; 103; 104; 105; 106; 107; 108; 109; 110; 111]%float initial).
  - reflexivity.
  - reflexivity.
  - cbn. lia.
Defined.

Lemma current_note_shown_witness :
  noteDisplay (frame 261.63 (frames [440; 440; 440]%float initial)) = "G"%string.
Proof.
  rewrite (current_note_shown [440; 440; 440]%float 261.63%float eq_refl).
  vm_compute. reflexivity.
Defined.

Lemma weak_block_resets_witness :
  updatePitch (repeat 0%float 2048) 44100 (frames [440; 440]%float initial)
  = mkTuner [] (smoothedCents (frames [440; 440]%float initial)) [] "-"%string
            NoHz Blank 0%float.
Proof.
  apply (weak_block_resets (repeat 0%float 2048) 44100%float).
  right. exists 2048%nat. repeat split; lia.
Defined.

End FramesSpec.
